(** * Conversation fork core of gemini-voyager: a shallow embedding

    The pure core of the fork feature: turn-id normalisation
    ([turnId.ts]), fork planning and branch display ([branching.ts]),
    the markdown transcript composer ([markdown.ts]) and the
    reconciliation of two replicas of the fork-node store ([merge.ts]).

    JavaScript strings are sequences of UTF-16 code units; they are
    modelled as lists of code units ([N]).  JavaScript numbers that the
    code uses as integers (indices, timestamps) are modelled as [Z]. *)

From Stdlib Require Import ZArith NArith List Ascii String Lia.
From Stdlib Require Import DecimalPos Sorted.
From stdpp Require Import base option list gmap.

Local Open Scope Z_scope.

(** ** JavaScript strings *)

Abbreviation jstring := (list N).

Module JsString.

(** A string literal of the source, given by its ASCII text. *)
Definition js (s : string) : jstring :=
  map N_of_ascii (list_ascii_of_string s).

(** [WhiteSpace] and [LineTerminator] code units of ECMAScript, the set
    removed by [String.prototype.trim]. *)
Definition isLineTerminator (c : N) : bool :=
  ((c =? 10) || (c =? 13) || (c =? 8232) || (c =? 8233))%N.

Definition isWhiteSpace (c : N) : bool :=
  ((c =? 9) || (c =? 11) || (c =? 12) || (c =? 32) || (c =? 160)
   || (c =? 5760) || ((8192 <=? c) && (c <=? 8202))
   || (c =? 8239) || (c =? 8287) || (c =? 12288) || (c =? 65279))%N.

Definition isTrimmable (c : N) : bool :=
  isWhiteSpace c || isLineTerminator c.

Fixpoint trimStart (s : jstring) : jstring :=
  match s with
  | c :: rest => if isTrimmable c then trimStart rest else s
  | [] => []
  end.

Definition trimEnd (s : jstring) : jstring :=
  rev (trimStart (rev s)).

(** [s.trim()] *)
Definition trim (s : jstring) : jstring := trimEnd (trimStart s).

(** [\d] of a regular expression without the unicode flag. *)
Definition isDigit (c : N) : bool := ((48 <=? c) && (c <=? 57))%N.

(** Longest prefix of decimal digits, and what follows it. *)
Fixpoint spanDigits (s : jstring) : jstring * jstring :=
  match s with
  | c :: rest =>
      if isDigit c
      then let '(ds, tl) := spanDigits rest in (c :: ds, tl)
      else ([], s)
  | [] => ([], [])
  end.

(** Code units of a decimal numeral, most significant digit first. *)
Fixpoint uintUnits (u : Decimal.uint) : jstring :=
  match u with
  | Decimal.Nil => []
  | Decimal.D0 u => 48%N :: uintUnits u
  | Decimal.D1 u => 49%N :: uintUnits u
  | Decimal.D2 u => 50%N :: uintUnits u
  | Decimal.D3 u => 51%N :: uintUnits u
  | Decimal.D4 u => 52%N :: uintUnits u
  | Decimal.D5 u => 53%N :: uintUnits u
  | Decimal.D6 u => 54%N :: uintUnits u
  | Decimal.D7 u => 55%N :: uintUnits u
  | Decimal.D8 u => 56%N :: uintUnits u
  | Decimal.D9 u => 57%N :: uintUnits u
  end.

(** [String(n)] for an integer [n] in plain decimal notation, which is
    what JavaScript prints for the integers that a number holds one by
    one, those of magnitude up to 2^53; [Float64.toString] below has what
    it prints above them. *)
Definition numberToString (n : Z) : jstring :=
  match Z.to_int n with
  | Decimal.Pos u => uintUnits u
  | Decimal.Neg u => 45%N :: uintUnits u
  end.

(** [s.includes(t)]: [t] occurs in [s] as a contiguous block. *)
Definition includes (s t : jstring) : Prop :=
  exists pre post, s = pre ++ t ++ post.

(** The same as a test that computes. *)
Fixpoint startsWith (s t : jstring) {struct t} : bool :=
  match t, s with
  | [], _ => true
  | c :: t', d :: s' => (c =? d)%N && startsWith s' t'
  | _ :: _, [] => false
  end.

Fixpoint includesb (s t : jstring) : bool :=
  startsWith s t
  || match s with
     | [] => false
     | _ :: s' => includesb s' t
     end.

(** [lines.join(sep)] *)
Fixpoint join (sep : jstring) (lines : list jstring) : jstring :=
  match lines with
  | [] => []
  | [l] => l
  | l :: rest => l ++ sep ++ join sep rest
  end.

End JsString.

Import JsString.

(** ** turnId.ts *)

Module TurnId.

Definition str_u_dash : jstring := Eval cbv in js "u-".

(** [USER_TURN_ID_RE = /^u-(\d+)(?:-.+)?$/], applied with [exec]: the
    result is the first capture group when the whole string matches.
    [\d+] is greedy and what follows it cannot start with a digit, so
    the only split to try is the longest run of digits.  [.] matches
    any code unit but a line terminator; [$] is the end of input. *)
Definition USER_TURN_ID_RE_exec (s : jstring) : option jstring :=
  match s with
  | 117%N :: 45%N :: rest =>
      let '(digits, suffix) := spanDigits rest in
      match digits with
      | [] => None
      | _ :: _ =>
          match suffix with
          | [] => Some digits
          | 45%N :: (_ :: _) as tail =>
              if forallb (fun c => negb (isLineTerminator c)) tail
              then Some digits else None
          | _ => None
          end
      end
  | _ => None
  end.

(** [`u-${Math.max(0, index)}`] with the index an integer.  The index is
    a position in a list, far below 2^53, where the number prints as the
    integer does; [Float64.makeStableTurnId] below prints it as a number
    whatever its size. *)
Definition makeStableTurnId (index : Z) : jstring :=
  str_u_dash ++ numberToString (Z.max 0 index).

Definition normalizeTurnId (turnId : jstring) : jstring :=
  let trimmed := trim turnId in
  match USER_TURN_ID_RE_exec trimmed with
  | None => trimmed
  | Some digits => str_u_dash ++ digits
  end.

End TurnId.

Import TurnId.

(** ** forkTypes.ts *)

Module ForkTypes.

Record ForkNode := mkForkNode {
  turnId : jstring;
  conversationId : jstring;
  conversationUrl : jstring;
  conversationTitle : option jstring;
  forkGroupId : jstring;
  forkIndex : Z;
  createdAt : Z;
}.

Record ForkNodesData := mkForkNodesData {
  nodes : gmap jstring (list ForkNode);
  groups : gmap jstring (list jstring);
}.

End ForkTypes.

Import ForkTypes.

(** ** branching.ts *)

Module Branching.

Record ForkPlan := mkForkPlan {
  planForkGroupId : jstring;
  sourceForkIndex : Z;
  nextForkIndex : Z;
}.

(** [Array.from(new Set(xs))]: the distinct elements of [xs], each at
    the place of its first occurrence. *)
Definition setAdd (seen : list jstring) (x : jstring) : list jstring :=
  if bool_decide (x ∈ seen) then seen else seen ++ [x].

Definition arrayFromSet (xs : list jstring) : list jstring :=
  foldl setAdd [] xs.

(** [groups[groupId] || []] *)
Definition groupNodesOf (groups : gmap jstring (list ForkNode))
    (groupId : jstring) : list ForkNode :=
  default [] (groups !! groupId).

Definition sameTurn (normalizedTurnId : jstring) (node : ForkNode) : bool :=
  bool_decide (normalizeTurnId (turnId node) = normalizedTurnId).

(** One round of the loop over [groupIds]. *)
Definition betterGroup (groups : gmap jstring (list ForkNode))
    (best : jstring * list ForkNode) (groupId : jstring)
    : jstring * list ForkNode :=
  let groupNodes := groupNodesOf groups groupId in
  if (length best.2 <? length groupNodes)%nat
  then (groupId, groupNodes) else best.

(** The loop with its initialisation from [groupIds[0]].  The list is
    never empty where the function is called; on the empty list the
    model starts from the empty group id. *)
Definition bestGroup (groups : gmap jstring (list ForkNode))
    (groupIds : list jstring) : jstring * list ForkNode :=
  let first := default [] (head groupIds) in
  foldl (betterGroup groups) (first, groupNodesOf groups first) groupIds.

Definition maxForkIndexOf (groupNodes : list ForkNode) : Z :=
  foldl (fun max node => Z.max max (forkIndex node)) 0 groupNodes.

Definition resolveForkPlan (conversationId' turnId' : jstring)
    (conversationNodes : list ForkNode)
    (groups : gmap jstring (list ForkNode))
    (createForkGroupId : unit -> jstring) : ForkPlan :=
  let normalizedTurnId := normalizeTurnId turnId' in
  let sameTurnNodes := List.filter (sameTurn normalizedTurnId) conversationNodes in
  if (length sameTurnNodes =? 0)%nat then
    {| planForkGroupId := createForkGroupId tt;
       sourceForkIndex := 0;
       nextForkIndex := 1 |}
  else
    let groupIds := arrayFromSet (map forkGroupId sameTurnNodes) in
    let '(bestGroupId, bestGroupNodes) := bestGroup groups groupIds in
    let sourceNode :=
      find (fun node =>
              bool_decide (conversationId node = conversationId')
              && sameTurn normalizedTurnId node) bestGroupNodes in
    let maxForkIndex := maxForkIndexOf bestGroupNodes in
    {| planForkGroupId := bestGroupId;
       sourceForkIndex := default 0 (forkIndex <$> sourceNode);
       nextForkIndex := maxForkIndex + 1 |}.

(** A [Map<string, ForkNode>]: entries in insertion order; [set] on a
    key already present replaces the value where it stands. *)
Fixpoint mapGet (k : jstring) (m : list (jstring * ForkNode)) : option ForkNode :=
  match m with
  | [] => None
  | (k', v) :: rest => if bool_decide (k' = k) then Some v else mapGet k rest
  end.

Fixpoint mapSet (k : jstring) (v : ForkNode) (m : list (jstring * ForkNode))
    : list (jstring * ForkNode) :=
  match m with
  | [] => [(k, v)]
  | (k', v') :: rest =>
      if bool_decide (k' = k) then (k, v) :: rest
      else (k', v') :: mapSet k v rest
  end.

Definition mapValues (m : list (jstring * ForkNode)) : list ForkNode :=
  map snd m.

(** The body of the deduplication loop. *)
Definition dedupStep (dedupedByConversation : list (jstring * ForkNode))
    (node : ForkNode) : list (jstring * ForkNode) :=
  match mapGet (conversationId node) dedupedByConversation with
  | None => mapSet (conversationId node) node dedupedByConversation
  | Some existing =>
      if forkIndex node <? forkIndex existing then
        mapSet (conversationId node) node dedupedByConversation
      else if (forkIndex node =? forkIndex existing)
              && (createdAt node <? createdAt existing) then
        mapSet (conversationId node) node dedupedByConversation
      else dedupedByConversation
  end.

(** The comparator handed to [sort]. *)
Definition compareNodes (a b : ForkNode) : Z :=
  if negb (forkIndex a =? forkIndex b) then forkIndex a - forkIndex b
  else createdAt a - createdAt b.

(** [Array.prototype.sort] with a comparator: a stable sort, here by
    insertion. *)
Fixpoint insertSorted (cmp : ForkNode -> ForkNode -> Z) (x : ForkNode)
    (l : list ForkNode) : list ForkNode :=
  match l with
  | [] => [x]
  | y :: rest =>
      if cmp x y <=? 0 then x :: y :: rest
      else y :: insertSorted cmp x rest
  end.

Definition sortBy (cmp : ForkNode -> ForkNode -> Z) (l : list ForkNode)
    : list ForkNode :=
  foldr (insertSorted cmp) [] l.

Definition buildBranchDisplayNodes (groupNodesList : list (list ForkNode))
    : list ForkNode :=
  let dedupedByConversation := foldl dedupStep [] (concat groupNodesList) in
  sortBy compareNodes (mapValues dedupedByConversation).

End Branching.

Import Branching.

(** ** markdown.ts *)

Module Markdown.

Record ForkExtractedTurn := mkTurn {
  user : jstring;
  assistant : option jstring;
}.

Definition str_newline : jstring := [10%N].
Definition str_Untitled : jstring := Eval cbv in js "Untitled".
Definition str_hash_space : jstring := Eval cbv in js "# ".
(** ["### 👤 User"] and ["### 🤖 Assistant"]; each emoji is a surrogate
    pair. *)
Definition str_user_heading : jstring :=
  Eval cbv in js "### " ++ [55357%N; 56420%N] ++ js " User".
Definition str_assistant_heading : jstring :=
  Eval cbv in js "### " ++ [55358%N; 56598%N] ++ js " Assistant".

(** [s || fallback] on strings: the empty string is falsy. *)
Definition orElse (s fallback : jstring) : jstring :=
  match s with [] => fallback | _ => s end.

(** [turn.assistant?.trim()] taken as a condition. *)
Definition hasAssistant (turn : ForkExtractedTurn) : bool :=
  match assistant turn with
  | None => false
  | Some a => match trim a with [] => false | _ => true end
  end.

(** The lines one round of the rendering loop pushes. *)
Definition turnLines (turn : ForkExtractedTurn) : list jstring :=
  [str_user_heading; []; orElse (user turn) []; []]
  ++ (if hasAssistant turn
      then [str_assistant_heading; []; default [] (assistant turn); []]
      else []).

Definition render (title : jstring) (normalizedTurns : list ForkExtractedTurn)
    : jstring :=
  join str_newline
    ([str_hash_space ++ orElse title str_Untitled; []]
     ++ concat (map turnLines normalizedTurns)).

Definition clearAssistant (turn : ForkExtractedTurn) : ForkExtractedTurn :=
  {| user := user turn; assistant := Some [] |}.

(** The function on values: what it returns for the contents of its
    arguments. *)
Definition buildForkMarkdown (title : jstring)
    (turns : list ForkExtractedTurn) (dropLastAssistant : bool) : jstring :=
  if (length turns =? 0)%nat then []
  else
    let normalizedTurns := map (fun turn => mkTurn (user turn) (assistant turn)) turns in
    let normalizedTurns :=
      if dropLastAssistant && (0 <? length normalizedTurns)%nat
      then alter clearAssistant (length normalizedTurns - 1)%nat normalizedTurns
      else normalizedTurns in
    render title normalizedTurns.

(** *** The function on a store of objects

    Turn records and arrays are JavaScript objects reached through
    references; two array slots, or two arrays, may hold the same
    reference.  The store is a list of objects, a reference is a
    position in it, and allocation appends. *)

Inductive obj :=
| TurnObj (turn : ForkExtractedTurn)
| ArrayObj (elems : list nat).

Abbreviation store := (list obj).

(** Computations that read and write the store and may get stuck (on a
    dangling reference or an object of the wrong kind). *)
Definition M (A : Type) : Type := store -> option (A * store).

Definition ret {A} (a : A) : M A := fun h => Some (a, h).

Definition bind {A B} (m : M A) (k : A -> M B) : M B :=
  fun h => match m h with
           | Some (a, h') => k a h'
           | None => None
           end.

Declare Scope store_scope.
Delimit Scope store_scope with store.
Notation "'do' x <- m ; k" := (bind m (fun x => k))
  (at level 10, x name, m at level 100, k at level 200) : store_scope.
Notation "'run' m ; k" := (bind m (fun _ => k))
  (at level 10, m at level 100, k at level 200) : store_scope.

Local Open Scope store_scope.

Definition readTurn (r : nat) : M ForkExtractedTurn :=
  fun h => match h !! r with
           | Some (TurnObj t) => Some (t, h)
           | _ => None
           end.

Definition readArray (r : nat) : M (list nat) :=
  fun h => match h !! r with
           | Some (ArrayObj a) => Some (a, h)
           | _ => None
           end.

Definition alloc (o : obj) : M nat :=
  fun h => Some (length h, h ++ [o]).

(** [ref.assistant = value] *)
Definition writeAssistant (r : nat) (value : option jstring) : M unit :=
  fun h => match h !! r with
           | Some (TurnObj t) =>
               Some (tt, <[r := TurnObj (mkTurn (user t) value)]> h)
           | _ => None
           end.

Fixpoint mapM {A B} (f : A -> M B) (l : list A) : M (list B) :=
  match l with
  | [] => ret []
  | a :: rest => do b <- f a; do bs <- mapM f rest; ret (b :: bs)
  end.

(** [turns.map((turn) => ({ ...turn }))]: a new object per element. *)
Definition copyTurn (r : nat) : M nat :=
  do t <- readTurn r; alloc (TurnObj (mkTurn (user t) (assistant t))).

Definition buildForkMarkdownOnStore (title : jstring) (turns : nat)
    (dropLastAssistant : bool) : M jstring :=
  do elems <- readArray turns;
  if (length elems =? 0)%nat then ret []
  else
    do copies <- mapM copyTurn elems;
    do normalizedTurns <- alloc (ArrayObj copies);
    run (if dropLastAssistant && (0 <? length copies)%nat
         then match copies !! (length copies - 1)%nat with
              | Some lastRef => writeAssistant lastRef (Some [])
              | None => ret tt
              end
         else ret tt);
    do refs <- readArray normalizedTurns;
    do rendered <- mapM readTurn refs;
    ret (render title rendered).

End Markdown.

Import Markdown.

(** ** merge.ts *)

Module Merge.

(** What a caller may hand over as a replica. *)
Inductive MergeInput :=
| Absent                        (* [null] or [undefined] *)
| Malformed                     (* a value that is not a dataset record *)
| Dataset (d : ForkNodesData).

Definition emptyData : ForkNodesData := mkForkNodesData ∅ ∅.

(** Modelled from the spec: the body of [mergeForkNodes] ([merge.ts])
    is not among the sources, only its tests are.  An absent or
    malformed argument is treated as the empty dataset. *)
Definition datasetOf (x : MergeInput) : ForkNodesData :=
  match x with
  | Dataset d => d
  | Absent | Malformed => emptyData
  end.

(** Modelled from the spec: the identity of a node of [merge.ts],
    which is missing, is (conversationId, turnId, forkGroupId). *)
Definition sameIdentity (a b : ForkNode) : bool :=
  bool_decide (conversationId a = conversationId b)
  && bool_decide (turnId a = turnId b)
  && bool_decide (forkGroupId a = forkGroupId b).

(** Modelled from the spec: winner selection of the missing [merge.ts].
    An entry meeting an earlier entry of its identity replaces it, whole,
    when its [createdAt] is strictly greater; otherwise the earlier one
    stays.  An entry of a new identity is added. *)
Fixpoint upsert (entry : ForkNode) (acc : list ForkNode) : list ForkNode :=
  match acc with
  | [] => [entry]
  | e :: rest =>
      if sameIdentity e entry
      then (if createdAt e <? createdAt entry then entry else e) :: rest
      else e :: upsert entry rest
  end.

(** Modelled from the spec: the per-conversation step of the missing
    [merge.ts], the union of the entries of both replicas, those of the
    local replica first, so that it wins the ties. *)
Definition mergeConversation (localArr cloudArr : list ForkNode)
    : list ForkNode :=
  foldl (fun acc entry => upsert entry acc) [] (localArr ++ cloudArr).

(** Modelled from the spec: one slot of the [nodes] index of the missing [merge.ts]: a
    conversation of either replica gets a merged collection. *)
Definition mergeSlot (localArr cloudArr : option (list ForkNode))
    : option (list ForkNode) :=
  match localArr, cloudArr with
  | None, None => None
  | _, _ => Some (mergeConversation (default [] localArr) (default [] cloudArr))
  end.

(** Modelled from the spec: the [nodes] index of the missing
    [merge.ts], one merged collection for every conversationId of either
    replica. *)
Definition mergeNodes (localNodes cloudNodes : gmap jstring (list ForkNode))
    : gmap jstring (list ForkNode) :=
  merge mergeSlot localNodes cloudNodes.

(** Modelled from the spec: the composite key ["conversationId:turnId"]
    of a node in the missing [merge.ts]. *)
Definition compositeKey (node : ForkNode) : jstring :=
  conversationId node ++ [58%N] ++ turnId node.

(** Modelled from the spec: one step of the rebuilding of the groups index in the
    missing [merge.ts]: the key is added unless it is there already. *)
Definition addToGroup (groups : gmap jstring (list jstring)) (node : ForkNode)
    : gmap jstring (list jstring) :=
  let members := default [] (groups !! forkGroupId node) in
  let key := compositeKey node in
  <[forkGroupId node :=
      if bool_decide (key ∈ members) then members else members ++ [key]]> groups.

(** Modelled from the spec: every node of a [nodes] index, as the rebuilding in the
    missing [merge.ts] goes through them. *)
Definition allNodes (nodes : gmap jstring (list ForkNode)) : list ForkNode :=
  concat (map snd (map_to_list nodes)).

(** Modelled from the spec: the [groups] index of the missing
    [merge.ts], rebuilt from the merged [nodes] index by going through
    every node and adding its composite key to the list of its group
    unless the key is there already. *)
Definition rebuildGroups (nodes : gmap jstring (list ForkNode))
    : gmap jstring (list jstring) :=
  foldl addToGroup ∅ (allNodes nodes).

(** Modelled from the spec: [mergeForkNodes] of [merge.ts], which is
    missing from the sources. *)
Definition mergeForkNodes (local cloud : MergeInput) : ForkNodesData :=
  let mergedNodes := mergeNodes (nodes (datasetOf local)) (nodes (datasetOf cloud)) in
  {| nodes := mergedNodes; groups := rebuildGroups mergedNodes |}.

End Merge.

Import Merge.

(** ** chatPairs.ts *)

Module ChatPairs.

Record ForkChatPair := mkForkChatPair {
  turnId : jstring;
  user : jstring;
  assistant : jstring;
  userElement : nat;
}.

(** What the functions of this file read of a DOM element. *)
Record HTMLElement := mkElement {
  elementRef : nat;
  textContent : option jstring;
  offsetTop : Z;
}.

(** [text.replace(/\s+/g, ' ')]: every maximal run of white space becomes
    one space.  [\s] is the set that [trim] removes.  [inRun] tells that
    the code unit before was white space. *)
Fixpoint replaceWhitespaceRuns (inRun : bool) (text : jstring) : jstring :=
  match text with
  | [] => []
  | c :: rest =>
      if isTrimmable c
      then (if inRun then replaceWhitespaceRuns true rest
            else 32%N :: replaceWhitespaceRuns true rest)
      else c :: replaceWhitespaceRuns false rest
  end.

Definition normalizeText (text : option jstring) : jstring :=
  match text with
  | None | Some [] => []
  | Some t => trim (replaceWhitespaceRuns false t)
  end.

(** The inner loop of [filterTopLevel]: does an element at a position
    other than [i] contain [el]?  [j] is the position of the head of
    [others]. *)
Fixpoint containedByOther {E} (contains : E -> E -> bool) (el : E) (i j : nat)
    (others : list E) : bool :=
  match others with
  | [] => false
  | other :: rest =>
      if (i =? j)%nat then containedByOther contains el i (S j) rest
      else if contains other el then true
      else containedByOther contains el i (S j) rest
  end.

Fixpoint filterTopLevelFrom {E} (contains : E -> E -> bool) (arr : list E)
    (i : nat) (pending : list E) : list E :=
  match pending with
  | [] => []
  | el :: rest =>
      if containedByOther contains el i 0 arr
      then filterTopLevelFrom contains arr (S i) rest
      else el :: filterTopLevelFrom contains arr (S i) rest
  end.

(** [contains other el] stands for [other.contains(el)] of the DOM. *)
Definition filterTopLevel {E} (contains : E -> E -> bool) (elements : list E)
    : list E :=
  filterTopLevelFrom contains elements 0 elements.

(** The key of [dedupeByTextAndOffset].  [offsetTop] is an integer, so
    [|| 0] and [Math.round] leave the difference as it is. *)
Definition dedupeKey (firstTurnOffset : Z) (el : HTMLElement) : jstring :=
  normalizeText (Some (default [] (textContent el)))
  ++ [124%N] ++ numberToString (offsetTop el - firstTurnOffset).

Definition dedupeStep (firstTurnOffset : Z)
    (state : gset jstring * list HTMLElement) (el : HTMLElement)
    : gset jstring * list HTMLElement :=
  let key := dedupeKey firstTurnOffset el in
  if bool_decide (key ∈ state.1) then state
  else (state.1 ∪ {[ key ]}, state.2 ++ [el]).

Definition dedupeByTextAndOffset (elements : list HTMLElement)
    (firstTurnOffset : Z) : list HTMLElement :=
  (foldl (dedupeStep firstTurnOffset) (∅, []) elements).2.

(** [off < bound] where [None] is [Number.POSITIVE_INFINITY]. *)
Definition belowBound (off : Z) (bound : option Z) : bool :=
  match bound with
  | None => true
  | Some b => off <? b
  end.

(** The loop of [collectForkChatPairs] that looks, for one user turn, for
    the assistant element of least offset in the window from [start] to
    [end].  The state is [bestOff] and [assistantHost]. *)
Definition hostStep (start : Z) (end_ : option Z)
    (state : option Z * option HTMLElement) (candidate : HTMLElement)
    : option Z * option HTMLElement :=
  let off := offsetTop candidate in
  if (start <=? off) && belowBound off end_ && belowBound off state.1
  then (Some off, Some candidate) else state.

Definition assistantHostByOffset (assistants : list HTMLElement) (start : Z)
    (end_ : option Z) : option HTMLElement :=
  (foldl (hostStep start end_) (None, None) assistants).2.

End ChatPairs.

(** ** The fork controller (src/unnamed/part_005) *)

Module Controller.

(** Longest prefix of code units that satisfy [p], and what follows. *)
Fixpoint span (p : N -> bool) (s : jstring) : jstring * jstring :=
  match s with
  | c :: rest =>
      if p c then let '(taken, tl) := span p rest in (c :: taken, tl)
      else ([], s)
  | [] => ([], [])
  end.

Fixpoint stripPrefix (prefix s : jstring) : option jstring :=
  match prefix, s with
  | [], _ => Some s
  | p :: prefix', c :: s' => if (p =? c)%N then stripPrefix prefix' s' else None
  | _ :: _, [] => None
  end.

(** [[^/?#]] and [[^/]] *)
Definition isIdUnit (c : N) : bool :=
  negb ((c =? 47) || (c =? 63) || (c =? 35))%N.

Definition isNotSlash (c : N) : bool := negb (c =? 47)%N.

Definition str_app : jstring := Eval cbv in js "/app/".
Definition str_gem : jstring := Eval cbv in js "/gem/".

(** The capture [([^/?#]+)] at the start of [s]. *)
Definition captureId (s : jstring) : option jstring :=
  match (span isIdUnit s).1 with
  | [] => None
  | id => Some id
  end.

(** [/\/app\/([^/?#]+)/] matched at the start of [s]. *)
Definition matchAppHere (s : jstring) : option jstring :=
  match stripPrefix str_app s with
  | Some rest => captureId rest
  | None => None
  end.

(** [/\/gem\/[^/]+\/([^/?#]+)/] matched at the start of [s].  [[^/]+] is
    greedy and must be followed by a slash, so only the longest run can
    match. *)
Definition matchGemHere (s : jstring) : option jstring :=
  match stripPrefix str_gem s with
  | Some rest =>
      let '(gem, tl) := span isNotSlash rest in
      match gem, tl with
      | _ :: _, 47%N :: tl' => captureId tl'
      | _, _ => None
      end
  | None => None
  end.

(** [s.match(re)?.[1]] for a regular expression without flags: the first
    capture group of the leftmost match. *)
Fixpoint searchFirst (matchHere : jstring -> option jstring) (s : jstring)
    : option jstring :=
  match matchHere s with
  | Some capture => Some capture
  | None =>
      match s with
      | [] => None
      | _ :: rest => searchFirst matchHere rest
      end
  end.

(** [pathname] is [window.location.pathname]. *)
Definition extractConversationIdFromUrl (pathname : jstring) : option jstring :=
  match searchFirst matchAppHere pathname with
  | Some id => Some id
  | None => searchFirst matchGemHere pathname
  end.

(** [datasetTurnId] is [el.dataset.turnId]; the result is the returned id
    and the value of [el.dataset.turnId] after the call. *)
Definition ensureTurnId (datasetTurnId : option jstring) (index : Z)
    : jstring * option jstring :=
  let stableId := makeStableTurnId index in
  let current := orElse (default [] datasetTurnId) [] in
  if bool_decide (normalizeTurnId current <> stableId)
  then (stableId, Some stableId)
  else (stableId, datasetTurnId).

(** [pairs.findIndex(p)], counted from [i]. *)
Fixpoint findIndexFrom {A} (p : A -> bool) (i : Z) (l : list A) : Z :=
  match l with
  | [] => -1
  | x :: rest => if p x then i else findIndexFrom p (i + 1) rest
  end.

(** The loop [for (let i = 0; i <= targetIndex && i < pairs.length; i++)];
    [pending] holds the pairs from position [i] on. *)
Fixpoint turnsUpTo (targetIndex i : Z) (pending : list ChatPairs.ForkChatPair)
    : list ForkExtractedTurn :=
  match pending with
  | [] => []
  | entry :: rest =>
      if i <=? targetIndex
      then mkTurn (orElse (ChatPairs.user entry) [])
                  (Some (orElse (ChatPairs.assistant entry) []))
           :: turnsUpTo targetIndex (i + 1) rest
      else []
  end.

(** [pairs] is what [collectForkChatPairs()] returns and [title] what
    [getConversationTitle()] returns. *)
Definition extractConversationUpToTurn (pairs : list ChatPairs.ForkChatPair)
    (title : jstring) (userTurnIndex : Z) (sourceTurnId : jstring) : jstring :=
  if (length pairs =? 0)%nat then []
  else
    let sourceIndex :=
      findIndexFrom
        (fun entry => bool_decide (normalizeTurnId (ChatPairs.turnId entry)
                                  = normalizeTurnId sourceTurnId)) 0 pairs in
    let targetIndex := if 0 <=? sourceIndex then sourceIndex else userTurnIndex in
    buildForkMarkdown title (turnsUpTo targetIndex 0 pairs) true.

End Controller.

Import Controller.

(** ** forkContext.ts (in src/unnamed/part_005) *)

Module ForkContext.

Inductive ForkLanguage := en | ar | es | fr | ja | ko | pt | ru | zh | zh_TW.

(** [value.toLowerCase()] on the letters A to Z.  The source compares the
    result with the ASCII string zh-tw only, and no other code unit has a
    lower case that is one of the letters or the hyphen of that string, so
    this part of the mapping decides the comparison. *)
Definition toLowerCaseAscii (s : jstring) : jstring :=
  map (fun c => if (65 <=? c) && (c <=? 90) then c + 32 else c)%N s.

Definition str_zh_TW : jstring := Eval cbv in js "zh_TW".
Definition str_zh_tw : jstring := Eval cbv in js "zh-tw".

Definition normalizeLanguage (raw : option jstring) : ForkLanguage :=
  match raw with
  | None | Some [] => en
  | Some r =>
      let value := trim r in
      if bool_decide (value = str_zh_TW)
         || bool_decide (toLowerCaseAscii value = str_zh_tw) then zh_TW
      else if startsWith value (js "zh") then zh
      else if startsWith value (js "ar") then ar
      else if startsWith value (js "es") then es
      else if startsWith value (js "fr") then fr
      else if startsWith value (js "ja") then ja
      else if startsWith value (js "ko") then ko
      else if startsWith value (js "pt") then pt
      else if startsWith value (js "ru") then ru
      else en
  end.

(** The template literals of [CONTEXT_PREFIX], as UTF-16 code units. *)
Definition prefix_en : jstring :=
  [35; 32; 66; 114; 97; 110; 99; 104; 32; 67; 111; 110; 116; 101; 120; 116;
   10; 89; 111; 117; 32; 97; 114; 101; 32; 99; 111; 110; 116; 105; 110;
   117; 105; 110; 103; 32; 97; 32; 98; 114; 97; 110; 99; 104; 101; 100; 32;
   99; 111; 110; 118; 101; 114; 115; 97; 116; 105; 111; 110; 46; 10; 45;
   32; 84; 104; 101; 32; 115; 101; 99; 116; 105; 111; 110; 32; 98; 101;
   108; 111; 119; 32; 105; 115; 32; 116; 104; 101; 32; 99; 111; 110; 118;
   101; 114; 115; 97; 116; 105; 111; 110; 32; 104; 105; 115; 116; 111; 114;
   121; 32; 117; 112; 32; 116; 111; 32; 116; 104; 101; 32; 102; 111; 114;
   107; 32; 112; 111; 105; 110; 116; 46; 10; 45; 32; 67; 111; 110; 116;
   105; 110; 117; 101; 32; 102; 114; 111; 109; 32; 116; 104; 101; 32; 102;
   105; 110; 97; 108; 32; 34; 85; 115; 101; 114; 34; 32; 109; 101; 115;
   115; 97; 103; 101; 32; 97; 115; 32; 97; 32; 110; 101; 119; 32; 98; 114;
   97; 110; 99; 104; 46; 10; 45; 32; 68; 111; 32; 110; 111; 116; 32; 114;
   101; 119; 114; 105; 116; 101; 32; 116; 104; 101; 32; 104; 105; 115; 116;
   111; 114; 121; 59; 32; 111; 110; 108; 121; 32; 112; 114; 111; 118; 105;
   100; 101; 32; 116; 104; 101; 32; 110; 101; 120; 116; 32; 97; 115; 115;
   105; 115; 116; 97; 110; 116; 32; 114; 101; 115; 112; 111; 110; 115; 101;
   46; 10]%N.

Definition prefix_ar : jstring :=
  [35; 32; 1587; 1610; 1575; 1602; 32; 1575; 1604; 1578; 1601; 1585; 1593;
   10; 1571; 1606; 1578; 32; 1578; 1578; 1575; 1576; 1593; 32; 1605; 1581;
   1575; 1583; 1579; 1577; 32; 1605; 1578; 1601; 1585; 1593; 1577; 46; 10;
   45; 32; 1575; 1604; 1602; 1587; 1605; 32; 1571; 1583; 1606; 1575; 1607;
   32; 1607; 1608; 32; 1587; 1580; 1604; 32; 1575; 1604; 1605; 1581; 1575;
   1583; 1579; 1577; 32; 1581; 1578; 1609; 32; 1606; 1602; 1591; 1577; 32;
   1575; 1604; 1578; 1601; 1585; 1593; 46; 10; 45; 32; 1578; 1575; 1576;
   1593; 32; 1605; 1606; 32; 1570; 1582; 1585; 32; 1585; 1587; 1575; 1604;
   1577; 32; 34; 1575; 1604; 1605; 1587; 1578; 1582; 1583; 1605; 34; 32;
   1603; 1601; 1585; 1593; 32; 1580; 1583; 1610; 1583; 46; 10; 45; 32;
   1604; 1575; 32; 1578; 1593; 1616; 1583; 32; 1603; 1578; 1575; 1576;
   1577; 32; 1575; 1604; 1587; 1580; 1604; 1563; 32; 1602; 1583; 1617;
   1605; 32; 1585; 1583; 32; 1575; 1604; 1605; 1587; 1575; 1593; 1583; 32;
   1575; 1604; 1578; 1575; 1604; 1610; 32; 1601; 1602; 1591; 46; 10]%N.

Definition prefix_es : jstring :=
  [35; 32; 67; 111; 110; 116; 101; 120; 116; 111; 32; 100; 101; 32; 82; 97;
   109; 97; 10; 69; 115; 116; 225; 115; 32; 99; 111; 110; 116; 105; 110;
   117; 97; 110; 100; 111; 32; 117; 110; 97; 32; 99; 111; 110; 118; 101;
   114; 115; 97; 99; 105; 243; 110; 32; 101; 110; 32; 114; 97; 109; 97; 46;
   10; 45; 32; 76; 97; 32; 115; 101; 99; 99; 105; 243; 110; 32; 100; 101;
   32; 97; 98; 97; 106; 111; 32; 101; 115; 32; 101; 108; 32; 104; 105; 115;
   116; 111; 114; 105; 97; 108; 32; 104; 97; 115; 116; 97; 32; 101; 108;
   32; 112; 117; 110; 116; 111; 32; 100; 101; 32; 98; 105; 102; 117; 114;
   99; 97; 99; 105; 243; 110; 46; 10; 45; 32; 67; 111; 110; 116; 105; 110;
   250; 97; 32; 100; 101; 115; 100; 101; 32; 101; 108; 32; 250; 108; 116;
   105; 109; 111; 32; 109; 101; 110; 115; 97; 106; 101; 32; 100; 101; 32;
   34; 85; 115; 117; 97; 114; 105; 111; 34; 32; 99; 111; 109; 111; 32; 117;
   110; 97; 32; 110; 117; 101; 118; 97; 32; 114; 97; 109; 97; 46; 10; 45;
   32; 78; 111; 32; 114; 101; 101; 115; 99; 114; 105; 98; 97; 115; 32; 101;
   108; 32; 104; 105; 115; 116; 111; 114; 105; 97; 108; 59; 32; 101; 110;
   116; 114; 101; 103; 97; 32; 115; 111; 108; 111; 32; 108; 97; 32; 115;
   105; 103; 117; 105; 101; 110; 116; 101; 32; 114; 101; 115; 112; 117;
   101; 115; 116; 97; 32; 100; 101; 108; 32; 97; 115; 105; 115; 116; 101;
   110; 116; 101; 46; 10]%N.

Definition prefix_fr : jstring :=
  [35; 32; 67; 111; 110; 116; 101; 120; 116; 101; 32; 100; 101; 32; 66;
   114; 97; 110; 99; 104; 101; 10; 86; 111; 117; 115; 32; 112; 111; 117;
   114; 115; 117; 105; 118; 101; 122; 32; 117; 110; 101; 32; 99; 111; 110;
   118; 101; 114; 115; 97; 116; 105; 111; 110; 32; 98; 114; 97; 110; 99;
   104; 233; 101; 46; 10; 45; 32; 76; 97; 32; 115; 101; 99; 116; 105; 111;
   110; 32; 99; 105; 45; 100; 101; 115; 115; 111; 117; 115; 32; 101; 115;
   116; 32; 108; 39; 104; 105; 115; 116; 111; 114; 105; 113; 117; 101; 32;
   106; 117; 115; 113; 117; 39; 97; 117; 32; 112; 111; 105; 110; 116; 32;
   100; 101; 32; 98; 114; 97; 110; 99; 104; 101; 109; 101; 110; 116; 46;
   10; 45; 32; 67; 111; 110; 116; 105; 110; 117; 101; 122; 32; 224; 32;
   112; 97; 114; 116; 105; 114; 32; 100; 117; 32; 100; 101; 114; 110; 105;
   101; 114; 32; 109; 101; 115; 115; 97; 103; 101; 32; 34; 85; 116; 105;
   108; 105; 115; 97; 116; 101; 117; 114; 34; 32; 99; 111; 109; 109; 101;
   32; 117; 110; 101; 32; 110; 111; 117; 118; 101; 108; 108; 101; 32; 98;
   114; 97; 110; 99; 104; 101; 46; 10; 45; 32; 78; 101; 32; 114; 233; 233;
   99; 114; 105; 118; 101; 122; 32; 112; 97; 115; 32; 108; 39; 104; 105;
   115; 116; 111; 114; 105; 113; 117; 101; 59; 32; 102; 111; 117; 114; 110;
   105; 115; 115; 101; 122; 32; 117; 110; 105; 113; 117; 101; 109; 101;
   110; 116; 32; 108; 97; 32; 112; 114; 111; 99; 104; 97; 105; 110; 101;
   32; 114; 233; 112; 111; 110; 115; 101; 32; 100; 101; 32; 108; 39; 97;
   115; 115; 105; 115; 116; 97; 110; 116; 46; 10]%N.

Definition prefix_ja : jstring :=
  [35; 32; 20998; 23696; 12467; 12531; 12486; 12461; 12473; 12488; 10;
   12371; 12428; 12399; 20998; 23696; 12375; 12383; 20250; 35441; 12398;
   32154; 12365; 12391; 12377; 12290; 10; 45; 32; 20197; 19979; 12399;
   20998; 23696; 28857; 12414; 12391; 12398; 20250; 35441; 23653; 27508;
   12391; 12377; 12290; 10; 45; 32; 26368; 24460; 12398; 12300; 85; 115;
   101; 114; 12301; 12513; 12483; 12475; 12540; 12472; 12363; 12425; 26032;
   12375; 12356; 20998; 23696; 12392; 12375; 12390; 32154; 12369; 12390;
   12367; 12384; 12373; 12356; 12290; 10; 45; 32; 23653; 27508; 12434;
   26360; 12365; 30452; 12373; 12378; 12289; 27425; 12398; 12450; 12471;
   12473; 12479; 12531; 12488; 36820; 20449; 12398; 12415; 12434; 36820;
   12375; 12390; 12367; 12384; 12373; 12356; 12290; 10]%N.

Definition prefix_ko : jstring :=
  [35; 32; 48516; 44592; 32; 52968; 53581; 49828; 53944; 10; 54788; 51116;
   32; 48516; 44592; 46108; 32; 45824; 54868; 47484; 32; 51060; 50612;
   49436; 32; 52376; 47532; 54633; 45768; 45796; 46; 10; 45; 32; 50500;
   47000; 32; 49465; 49496; 51008; 32; 48516; 44592; 32; 51648; 51216;
   44620; 51648; 51032; 32; 45824; 54868; 32; 44592; 47197; 51077; 45768;
   45796; 46; 10; 45; 32; 47560; 51648; 47561; 32; 34; 85; 115; 101; 114;
   34; 32; 47700; 49884; 51648; 48512; 53552; 32; 49352; 32; 48516; 44592;
   47196; 32; 51060; 50612; 49436; 32; 45813; 48320; 54616; 49464; 50836;
   46; 10; 45; 32; 44592; 47197; 51012; 32; 45796; 49884; 32; 50416; 51648;
   32; 47568; 44256; 44; 32; 45796; 51020; 32; 50612; 49884; 49828; 53556;
   53944; 32; 51025; 45813; 47564; 32; 51228; 44277; 54616; 49464; 50836;
   46; 10]%N.

Definition prefix_pt : jstring :=
  [35; 32; 67; 111; 110; 116; 101; 120; 116; 111; 32; 100; 101; 32; 82; 97;
   109; 105; 102; 105; 99; 97; 231; 227; 111; 10; 86; 111; 99; 234; 32;
   101; 115; 116; 225; 32; 99; 111; 110; 116; 105; 110; 117; 97; 110; 100;
   111; 32; 117; 109; 97; 32; 99; 111; 110; 118; 101; 114; 115; 97; 32;
   114; 97; 109; 105; 102; 105; 99; 97; 100; 97; 46; 10; 45; 32; 65; 32;
   115; 101; 231; 227; 111; 32; 97; 98; 97; 105; 120; 111; 32; 233; 32;
   111; 32; 104; 105; 115; 116; 243; 114; 105; 99; 111; 32; 97; 116; 233;
   32; 111; 32; 112; 111; 110; 116; 111; 32; 100; 101; 32; 114; 97; 109;
   105; 102; 105; 99; 97; 231; 227; 111; 46; 10; 45; 32; 67; 111; 110; 116;
   105; 110; 117; 101; 32; 97; 32; 112; 97; 114; 116; 105; 114; 32; 100;
   97; 32; 250; 108; 116; 105; 109; 97; 32; 109; 101; 110; 115; 97; 103;
   101; 109; 32; 100; 101; 32; 34; 85; 115; 101; 114; 34; 32; 99; 111; 109;
   111; 32; 117; 109; 97; 32; 110; 111; 118; 97; 32; 114; 97; 109; 105;
   102; 105; 99; 97; 231; 227; 111; 46; 10; 45; 32; 78; 227; 111; 32; 114;
   101; 101; 115; 99; 114; 101; 118; 97; 32; 111; 32; 104; 105; 115; 116;
   243; 114; 105; 99; 111; 59; 32; 102; 111; 114; 110; 101; 231; 97; 32;
   97; 112; 101; 110; 97; 115; 32; 97; 32; 112; 114; 243; 120; 105; 109;
   97; 32; 114; 101; 115; 112; 111; 115; 116; 97; 32; 100; 111; 32; 97;
   115; 115; 105; 115; 116; 101; 110; 116; 101; 46; 10]%N.

Definition prefix_ru : jstring :=
  [35; 32; 1050; 1086; 1085; 1090; 1077; 1082; 1089; 1090; 32; 1042; 1077;
   1090; 1074; 1083; 1077; 1085; 1080; 1103; 10; 1042; 1099; 32; 1087;
   1088; 1086; 1076; 1086; 1083; 1078; 1072; 1077; 1090; 1077; 32; 1088;
   1072; 1079; 1075; 1086; 1074; 1086; 1088; 32; 1074; 32; 1085; 1086;
   1074; 1086; 1081; 32; 1074; 1077; 1090; 1082; 1077; 46; 10; 45; 32;
   1056; 1072; 1079; 1076; 1077; 1083; 32; 1085; 1080; 1078; 1077; 32;
   8212; 32; 1080; 1089; 1090; 1086; 1088; 1080; 1103; 32; 1076; 1080;
   1072; 1083; 1086; 1075; 1072; 32; 1076; 1086; 32; 1090; 1086; 1095;
   1082; 1080; 32; 1074; 1077; 1090; 1074; 1083; 1077; 1085; 1080; 1103;
   46; 10; 45; 32; 1055; 1088; 1086; 1076; 1086; 1083; 1078; 1072; 1081;
   1090; 1077; 32; 1086; 1090; 32; 1087; 1086; 1089; 1083; 1077; 1076;
   1085; 1077; 1075; 1086; 32; 1089; 1086; 1086; 1073; 1097; 1077; 1085;
   1080; 1103; 32; 34; 85; 115; 101; 114; 34; 32; 1082; 1072; 1082; 32;
   1085; 1086; 1074; 1091; 1102; 32; 1074; 1077; 1090; 1082; 1091; 46; 10;
   45; 32; 1053; 1077; 32; 1087; 1077; 1088; 1077; 1087; 1080; 1089; 1099;
   1074; 1072; 1081; 1090; 1077; 32; 1080; 1089; 1090; 1086; 1088; 1080;
   1102; 59; 32; 1076; 1072; 1081; 1090; 1077; 32; 1090; 1086; 1083; 1100;
   1082; 1086; 32; 1089; 1083; 1077; 1076; 1091; 1102; 1097; 1080; 1081;
   32; 1086; 1090; 1074; 1077; 1090; 32; 1072; 1089; 1089; 1080; 1089;
   1090; 1077; 1085; 1090; 1072; 46; 10]%N.

Definition prefix_zh : jstring :=
  [35; 32; 20998; 25903; 19978; 19979; 25991; 10; 20320; 27491; 22312;
   32487; 32493; 19968; 20010; 8220; 20998; 25903; 23545; 35805; 8221;
   12290; 10; 45; 32; 19979; 26041; 20869; 23481; 26159; 21040; 20998;
   21449; 28857; 20026; 27490; 30340; 21382; 21490; 23545; 35805; 12290;
   10; 45; 32; 35831; 20174; 26368; 21518; 19968; 26465; 8220; 85; 115;
   101; 114; 8221; 28040; 24687; 32487; 32493; 65292; 29983; 25104; 36825;
   20010; 26032; 20998; 25903; 30340; 21518; 32493; 22238; 22797; 12290;
   10; 45; 32; 19981; 35201; 37325; 20889; 21382; 21490; 65292; 21482;
   36755; 20986; 19979; 19968; 26465; 21161; 25163; 22238; 22797; 12290; 10]%N.

Definition prefix_zh_TW : jstring :=
  [35; 32; 20998; 25903; 19978; 19979; 25991; 10; 20320; 27491; 22312;
   24310; 32396; 19968; 20491; 12300; 20998; 25903; 23565; 35441; 12301;
   12290; 10; 45; 32; 19979; 26041; 20839; 23481; 26159; 21040; 20998;
   21449; 40670; 28858; 27490; 30340; 27511; 21490; 23565; 35441; 12290;
   10; 45; 32; 35531; 24478; 26368; 24460; 19968; 26781; 12300; 85; 115;
   101; 114; 12301; 35338; 24687; 32380; 32396; 65292; 29986; 29983; 36889;
   20491; 26032; 20998; 25903; 30340; 24460; 32396; 22238; 35206; 12290;
   10; 45; 32; 19981; 35201; 37325; 23531; 27511; 21490; 65292; 21482;
   36664; 20986; 19979; 19968; 26781; 21161; 25163; 22238; 35206; 12290; 10]%N.

Definition CONTEXT_PREFIX (language : ForkLanguage) : jstring :=
  match language with
  | en => prefix_en | ar => prefix_ar | es => prefix_es | fr => prefix_fr
  | ja => prefix_ja | ko => prefix_ko | pt => prefix_pt | ru => prefix_ru
  | zh => prefix_zh | zh_TW => prefix_zh_TW
  end.

Definition str_history_heading : jstring :=
  Eval cbv in [10%N] ++ js "# Conversation History" ++ [10%N].

Definition composeForkInputWithContext (historyMarkdown : jstring)
    (rawLanguage : option jstring) : jstring :=
  let language := normalizeLanguage rawLanguage in
  let prefix := orElse (CONTEXT_PREFIX language) (CONTEXT_PREFIX en) in
  let normalizedHistory := trim historyMarkdown in
  prefix ++ str_history_heading ++ normalizedHistory ++ [10%N].

End ForkContext.

(** ** Numbers as JavaScript has them

    A JavaScript number is a double (binary64).  It holds every integer up
    to 2^53 in magnitude, and [String(n)] prints such an integer digit by
    digit, which is what [numberToString] does.  Beyond 2^53 an integer is
    first rounded to the nearest double, and what is printed are the
    fewest digits that still denote that double, padded with zeros, or in
    exponent notation from 10^21 on.  This module follows
    [Number::toString] of ECMAScript for integers that are not negative. *)

Module Float64.

(** The double nearest to an integer [r >= 0] (ties to the even
    mantissa); [None] is [Infinity]. *)
Definition roundInteger (r : Z) : option Z :=
  if r <? 2 ^ 53 then Some r
  else
    let e := Z.log2 r - 52 in
    let q := r / 2 ^ e in
    let rest := r mod 2 ^ e in
    let half := 2 ^ (e - 1) in
    let q' :=
      if rest <? half then q
      else if half <? rest then q + 1
      else if Z.even q then q else q + 1 in
    let v := q' * 2 ^ e in
    if v <? 2 ^ 1024 then Some v else None.

Definition decimalLength (x : Z) : Z := Z.of_nat (length (numberToString x)).

(** The integer [s] of [k] digits with [s * 10^(n-k)] rounding to [x],
    if there is one; of two such the nearer to [x], the even one when they
    are equally near. *)
Definition digitsOfLength (x n k : Z) : option Z :=
  let p := 10 ^ (n - k) in
  let low := x / p in
  let high := low + 1 in
  let fits s :=
    (10 ^ (k - 1) <=? s) && (s <? 10 ^ k)
    && bool_decide (roundInteger (s * p) = Some x) in
  let lowNearer :=
    (x - low * p <? high * p - x)
    || ((x - low * p =? high * p - x) && Z.even low) in
  let first := if lowNearer then low else high in
  let second := if lowNearer then high else low in
  if fits first then Some first
  else if fits second then Some second
  else None.

(** The least [k], from [k] on, with such an [s].  A double never needs
    more than 17 digits, so the search ends before the fuel does; were it
    to run out, the digits of [x] itself are taken. *)
Fixpoint shortestFrom (fuel : nat) (x n k : Z) : Z * Z :=
  match fuel with
  | O => (x, n)
  | S fuel' =>
      match digitsOfLength x n k with
      | Some s => (s, k)
      | None => shortestFrom fuel' x n (k + 1)
      end
  end.

(** [n], [k] and [s] of step 5 of [Number::toString] for a double [x]
    with an integer value above 2^53: [k] as small as possible.  The
    value [s * 10^(n-k)] has the [n] digits of [x], but for the power of
    ten above [x] when that rounds to [x]. *)
Definition shortest (x : Z) : Z * Z * Z :=
  let d := decimalLength x in
  if bool_decide (roundInteger (10 ^ d) = Some x) then (d + 1, 1, 1)
  else let '(s, k) := shortestFrom 17 x d 1 in (d, k, s).

(** Steps 6 to 11 of [Number::toString] where [n >= k]: the digits of [s]
    and [n - k] zeros when [n <= 21], else exponent notation. *)
Definition formatNumber (n k s : Z) : jstring :=
  let digits := numberToString s in
  if n <=? 21 then digits ++ repeat 48%N (Z.to_nat (n - k))
  else
    let exponent := [101%N; 43%N] ++ numberToString (n - 1) in
    match digits with
    | [] => []
    | [d] => d :: exponent
    | d :: more => d :: 46%N :: more ++ exponent
    end.

(** [String(x)] for an integer [x >= 0] taken as a number. *)
Definition toString (x : Z) : jstring :=
  match roundInteger x with
  | None => js "Infinity"
  | Some v =>
      if v <=? 2 ^ 53 then numberToString v
      else let '(n, k, s) := shortest v in formatNumber n k s
  end.

(** [makeStableTurnId] of turnId.ts on numbers: [Math.max(0, index)] is
    never negative. *)
Definition makeStableTurnId (index : Z) : jstring :=
  str_u_dash ++ toString (Z.max 0 index).

End Float64.

(** ** Vocabulary of the statements *)

(** The number a string of decimal digits denotes. *)
Definition digitsValue (digits : jstring) : Z :=
  foldl (fun acc c => 10 * acc + (Z.of_N c - 48)) 0 digits.

Definition allDigits (digits : jstring) : Prop :=
  Forall (fun c => isDigit c = true) digits.

(** A decimal numeral as it is printed: no leading zero but for 0. *)
Definition canonicalNumeral (digits : jstring) : Prop :=
  allDigits digits
  /\ (digits = [48%N] \/ exists c rest, digits = c :: rest /\ c <> 48%N).

(** The string begins with ["u-"] and at least one digit. *)
Definition hasUserPrefix (s : jstring) : Prop :=
  exists digits rest,
    digits <> [] /\ allDigits digits /\ s = str_u_dash ++ digits ++ rest.

(** No white space at either end. *)
Definition isTrimmed (s : jstring) : Prop :=
  (forall c, head s = Some c -> isTrimmable c = false)
  /\ (forall c, last s = Some c -> isTrimmable c = false).

(** The fork node of the repository's tests. *)
Definition testNode (conv grp : string) (idx at' : Z) (title : string) : ForkNode :=
  {| turnId := js "u-0"; conversationId := js conv;
     conversationUrl := js "https://gemini.google.com/app/" ++ js conv;
     conversationTitle := Some (js title); forkGroupId := js grp;
     forkIndex := idx; createdAt := at' |}.

(** The number of entries that the groups record holds for a group id;
    an id without a list in the record has none. *)
Definition recordSize (groups : gmap jstring (list ForkNode)) (g : jstring)
    : nat :=
  match groups !! g with
  | Some members => length members
  | None => 0%nat
  end.

(** [chosen] is, among the groups that the nodes of [matching] refer to,
    one of greatest size in [groups], and the first such in the order in
    which [matching] lists them. *)
Definition firstLargestGroup (groups : gmap jstring (list ForkNode))
    (matching : list ForkNode) (chosen : jstring) : Prop :=
  let size g := recordSize groups g in
  exists i node,
    matching !! i = Some node /\ forkGroupId node = chosen
    /\ (forall j other, matching !! j = Some other ->
          (size (forkGroupId other) <= size chosen)%nat)
    /\ (forall j other, matching !! j = Some other -> (j < i)%nat ->
          (size (forkGroupId other) < size chosen)%nat).

(** [next] is one more than the greatest [forkIndex] of [members]. *)
Definition maxForkIndexPlusOne (members : list ForkNode) (next : Z) : Prop :=
  exists top,
    top ∈ members /\ next = forkIndex top + 1
    /\ forall n, n ∈ members -> forkIndex n <= forkIndex top.

(** Inputs of the resolver used to exercise the statements: two groups
    of the same size and a third, smaller one. *)
Definition planGroups : gmap jstring (list ForkNode) :=
  {[ js "group-a" := [testNode "conv-1" "group-a" 0 100 "a"; testNode "conv-2" "group-a" 1 200 "a"];
     js "group-b" := [testNode "conv-1" "group-b" 0 100 "b"; testNode "conv-3" "group-b" 4 300 "b"];
     js "group-c" := [testNode "conv-1" "group-c" 0 100 "c"] ]}.

Definition planNodes : list ForkNode :=
  [testNode "conv-1" "group-c" 0 100 "c"; testNode "conv-1" "group-b" 0 100 "b";
   testNode "conv-1" "group-a" 0 100 "a"].

(** The order of display: by [forkIndex], then by [createdAt]. *)
Definition displayOrder (a b : ForkNode) : Prop :=
  forkIndex a < forkIndex b
  \/ (forkIndex a = forkIndex b /\ createdAt a <= createdAt b).

(** The test of the deduplication loop for replacing an entry. *)
Definition betterThan (node existing : ForkNode) : bool :=
  (forkIndex node <? forkIndex existing)
  || ((forkIndex node =? forkIndex existing)
      && (createdAt node <? createdAt existing)).

(** What the loop maintains: one entry per conversation, filed under the
    conversation of its node, taken from the nodes seen, and first in the
    order of display among the nodes seen of its conversation. *)
Record dedupInvariant (m : list (jstring * ForkNode)) (seen : list ForkNode)
  : Prop := {
  inv_keys : NoDup (map fst m);
  inv_entry : forall k v, mapGet k m = Some v -> conversationId v = k /\ v ∈ seen;
  inv_least : forall n, n ∈ seen ->
      exists v, mapGet (conversationId n) m = Some v /\ displayOrder v n;
}.

(** The identity of a node for the merge. *)
Definition identityOf (node : ForkNode) : jstring * jstring * jstring :=
  (conversationId node, turnId node, forkGroupId node).

(** The entry kept of a local and a cloud entry of one identity. *)
Definition winnerOf (localEntry cloudEntry : ForkNode) : ForkNode :=
  if createdAt localEntry <? createdAt cloudEntry then cloudEntry else localEntry.

(** What [upsert] does to the entries of one identity. *)
Definition pick (entry : ForkNode) (sameId : list ForkNode) : list ForkNode :=
  match sameId with
  | [] => [entry]
  | e :: rest => (if createdAt e <? createdAt entry then entry else e) :: rest
  end.

(** What the rebuilding of the groups index maintains. *)
Record groupsInvariant (groups : gmap jstring (list jstring))
    (seen : list ForkNode) : Prop := {
  grp_members : forall g key,
      key ∈ default [] (groups !! g)
      <-> exists n, n ∈ seen /\ forkGroupId n = g /\ compositeKey n = key;
  grp_nodup : forall g keys, groups !! g = Some keys -> NoDup keys /\ keys <> [];
}.

(** The turn that [extractConversationUpToTurn] makes of a chat pair. *)
Definition turnOfPair (entry : ChatPairs.ForkChatPair) : ForkExtractedTurn :=
  mkTurn (ChatPairs.user entry) (Some (ChatPairs.assistant entry)).

(** The pair belongs to the turn with id [sourceTurnId]. *)
Definition pairOfTurn (sourceTurnId : jstring) (entry : ChatPairs.ForkChatPair)
    : Prop :=
  normalizeTurnId (ChatPairs.turnId entry) = normalizeTurnId sourceTurnId.

(** No white space is followed by white space. *)
Fixpoint noWhitespacePair (s : jstring) : Prop :=
  match s with
  | [] => True
  | c :: rest =>
      (isTrimmable c = true -> forall d, head rest = Some d -> isTrimmable d = false)
      /\ noWhitespacePair rest
  end.

(** The code units of a text that are not white space. *)
Definition inkOf (s : jstring) : jstring :=
  List.filter (fun c => negb (isTrimmable c)) s.

(** The offset of the element lies in the window from [start] to [end_]. *)
Definition inWindow (start : Z) (end_ : option Z) (el : ChatPairs.HTMLElement)
    : Prop :=
  start <= ChatPairs.offsetTop el
  /\ ChatPairs.belowBound (ChatPairs.offsetTop el) end_ = true.

(** What the loop of [dedupeByTextAndOffset] maintains. *)
Record dedupeInvariant (firstTurnOffset : Z)
    (state : gset jstring * list ChatPairs.HTMLElement)
    (seen : list ChatPairs.HTMLElement) : Prop := {
  dd_keys : forall key,
      key ∈ state.1 <-> key ∈ map (ChatPairs.dedupeKey firstTurnOffset) state.2;
  dd_nodup : NoDup (map (ChatPairs.dedupeKey firstTurnOffset) state.2);
  dd_sub : sublist state.2 seen;
  dd_all : forall el, el ∈ seen -> ChatPairs.dedupeKey firstTurnOffset el ∈ state.1;
  dd_head : head state.2 = head seen;
}.

(** What the loop of [assistantHostByOffset] maintains. *)
Definition hostInvariant (start : Z) (end_ : option Z)
    (state : option Z * option ChatPairs.HTMLElement)
    (seen : list ChatPairs.HTMLElement) : Prop :=
  match state.2 with
  | None => state.1 = None /\ forall el, el ∈ seen -> ~ inWindow start end_ el
  | Some host =>
      state.1 = Some (ChatPairs.offsetTop host)
      /\ host ∈ seen /\ inWindow start end_ host
      /\ forall el, el ∈ seen -> inWindow start end_ el ->
                    ChatPairs.offsetTop host <= ChatPairs.offsetTop el
  end.

(** The value names the Taiwan variant: zh_TW as written, or zh-tw in
    any mix of upper and lower case. *)
Definition isTaiwan (value : jstring) : Prop :=
  value = ForkContext.str_zh_TW
  \/ ForkContext.toLowerCaseAscii value = ForkContext.str_zh_tw.

(** The two letters by which [normalizeLanguage] knows a language. *)
Definition languageCode (language : ForkContext.ForkLanguage) : jstring :=
  match language with
  | ForkContext.ar => js "ar" | ForkContext.es => js "es"
  | ForkContext.fr => js "fr" | ForkContext.ja => js "ja"
  | ForkContext.ko => js "ko" | ForkContext.pt => js "pt"
  | ForkContext.ru => js "ru" | ForkContext.zh => js "zh"
  | ForkContext.zh_TW => js "zh" | ForkContext.en => js "en"
  end.

(** * Properties *)

(** ** Checks against the repository's tests *)

Example makeStableTurnId_3 : makeStableTurnId 3 = js "u-3".
Proof. reflexivity. Qed.

Example normalizeTurnId_legacy : normalizeTurnId (js "u-12-xyz") = js "u-12".
Proof. reflexivity. Qed.

Example normalizeTurnId_custom : normalizeTurnId (js "custom-id") = js "custom-id".
Proof. reflexivity. Qed.

Example resolveForkPlan_fresh :
  resolveForkPlan (js "conv-1") (js "u-2") [] ∅ (fun _ => js "new-group")
  = mkForkPlan (js "new-group") 0 1.
Proof. reflexivity. Qed.

Example resolveForkPlan_reuse :
  resolveForkPlan (js "conv-1") (js "u-0")
    [testNode "conv-1" "group-1" 0 100 "t"]
    {[ js "group-1" := [testNode "conv-1" "group-1" 0 100 "t";
                        testNode "conv-2" "group-1" 1 100 "t"] ]}
    (fun _ => js "new-group")
  = mkForkPlan (js "group-1") 0 2.
Proof. vm_compute. reflexivity. Qed.

Example buildBranchDisplayNodes_two_groups :
  map conversationId
    (buildBranchDisplayNodes
       [[testNode "conv-1" "group-a" 0 100 "t"; testNode "conv-2" "group-a" 1 200 "t"];
        [testNode "conv-1" "group-b" 0 100 "t"; testNode "conv-3" "group-b" 1 300 "t"]])
  = [js "conv-1"; js "conv-2"; js "conv-3"].
Proof. vm_compute. reflexivity. Qed.

Example mergeForkNodes_local_newer :
  nodes (mergeForkNodes
           (Dataset (mkForkNodesData {[ js "conv1" := [testNode "conv1" "g" 0 2000 "Local"] ]} ∅))
           (Dataset (mkForkNodesData {[ js "conv1" := [testNode "conv1" "g" 0 1000 "Cloud"] ]} ∅)))
    !! js "conv1"
  = Some [testNode "conv1" "g" 0 2000 "Local"].
Proof. vm_compute. reflexivity. Qed.

Example mergeForkNodes_groups_rebuilt :
  exists keys,
    groups (mergeForkNodes
              (Dataset (mkForkNodesData {[ js "conv1" := [testNode "conv1" "fork-1" 0 1000 "a"] ]} ∅))
              (Dataset (mkForkNodesData {[ js "conv2" := [testNode "conv2" "fork-1" 1 1000 "b"] ]} ∅)))
      !! js "fork-1" = Some keys
    /\ keys ≡ₚ [js "conv1:u-0"; js "conv2:u-0"].
Proof. eexists. split; [vm_compute; reflexivity |]. apply Permutation_swap. Qed.

Example mergeForkNodes_absent :
  mergeForkNodes Absent Absent = emptyData.
Proof. vm_compute. reflexivity. Qed.

Example buildForkMarkdown_drop_last :
  buildForkMarkdown (js "Fork Test")
    [mkTurn (js "u1") (Some (js "a1")); mkTurn (js "u2") (Some (js "a2"))] true
  = js "# Fork Test" ++ [10; 10]%N ++ str_user_heading ++ [10; 10]%N ++ js "u1"
    ++ [10; 10]%N ++ str_assistant_heading ++ [10; 10]%N ++ js "a1" ++ [10; 10]%N
    ++ str_user_heading ++ [10; 10]%N ++ js "u2" ++ [10]%N.
Proof. vm_compute. reflexivity. Qed.

(** ** turnId.ts *)

Section TurnIdFacts.

Lemma uintUnits_allDigits u : allDigits (uintUnits u).
Proof. induction u; simpl; constructor; auto. Qed.

Lemma digitsValue_acc u : forall acc : positive,
  foldl (fun acc c => 10 * acc + (Z.of_N c - 48)) (Z.pos acc) (uintUnits u)
  = Z.pos (Pos.of_uint_acc u acc).
Proof.
  induction u; intros acc; simpl; try reflexivity;
    rewrite <- IHu; f_equal; lia.
Qed.

Lemma digitsValue_uint u :
  digitsValue (uintUnits u) = Z.of_N (Pos.of_uint u).
Proof.
  unfold digitsValue.
  induction u; simpl; try reflexivity; try apply IHu;
    apply (digitsValue_acc u).
Qed.

Lemma unorm_D0 d : forall d', Decimal.unorm d = Decimal.D0 d' -> d' = Decimal.Nil.
Proof.
  induction d; simpl; intros d' H; try discriminate; auto.
  now injection H as <-.
Qed.

Lemma uintUnits_canonical d :
  Decimal.unorm d = d ->
  uintUnits d = [48%N] \/ exists c rest, uintUnits d = c :: rest /\ c <> 48%N.
Proof.
  destruct d; simpl; intros H; try discriminate;
    try (right; eexists _, _; split; [reflexivity | discriminate]).
  left. apply unorm_D0 in H. now subst.
Qed.

Lemma pos_to_uint_normal p : Decimal.unorm (Pos.to_uint p) = Pos.to_uint p.
Proof.
  rewrite <- (DecimalPos.Unsigned.to_of (Pos.to_uint p)).
  now rewrite DecimalPos.Unsigned.of_to.
Qed.

Lemma numberToString_nonneg n :
  0 <= n ->
  canonicalNumeral (numberToString n) /\ digitsValue (numberToString n) = n.
Proof.
  intros Hn. destruct n as [|p|p]; [| | lia].
  - split; [split; [repeat constructor | now left] | reflexivity].
  - unfold numberToString. simpl. split; [split |].
    + apply uintUnits_allDigits.
    + apply uintUnits_canonical, pos_to_uint_normal.
    + rewrite digitsValue_uint.
      now rewrite DecimalPos.Unsigned.of_to.
Qed.

Lemma spanDigits_spec s : forall ds tl,
  spanDigits s = (ds, tl) ->
  s = ds ++ tl /\ allDigits ds
  /\ (forall c, head tl = Some c -> isDigit c = false).
Proof.
  induction s as [|c s IH]; simpl; intros ds tl H.
  - injection H as <- <-. repeat split; [constructor | discriminate].
  - destruct (isDigit c) eqn:Hc.
    + destruct (spanDigits s) as [ds' tl'].
      injection H as <- <-.
      destruct (IH _ _ eq_refl) as (-> & Hds & Htl).
      repeat split; [constructor; assumption | assumption].
    + injection H as <- <-. repeat split; [constructor |].
      simpl. intros c' [= <-]. assumption.
Qed.

Lemma spanDigits_app ds tl :
  allDigits ds ->
  (forall c, head tl = Some c -> isDigit c = false) ->
  spanDigits (ds ++ tl) = (ds, tl).
Proof.
  intros Hds Htl. induction Hds as [|c ds Hc _ IH]; simpl.
  - destruct tl as [|c tl]; [reflexivity |].
    simpl. now rewrite (Htl c eq_refl).
  - now rewrite Hc, IH.
Qed.

Lemma exec_matches s digits :
  USER_TURN_ID_RE_exec s = Some digits ->
  digits <> [] /\ allDigits digits /\ exists rest, s = str_u_dash ++ digits ++ rest.
Proof.
  unfold USER_TURN_ID_RE_exec.
  destruct s as [|c0 s]; [discriminate |].
  destruct (N.eq_dec c0 117%N) as [-> | Hc0];
    [| destruct c0 as [|p]; try discriminate;
       do 7 (destruct p; try discriminate); congruence].
  destruct s as [|c1 s]; [discriminate |].
  destruct (N.eq_dec c1 45%N) as [-> | Hc1];
    [| destruct c1 as [|p]; try discriminate;
       do 6 (destruct p; try discriminate); congruence].
  destruct (spanDigits s) as [ds tl] eqn:Hspan.
  apply spanDigits_spec in Hspan as (-> & Hds & _).
  destruct ds as [|d ds]; [discriminate |].
  intros H. assert (digits = d :: ds) as ->.
  { destruct tl as [|t tl]; [congruence |].
    destruct t as [|p]; try discriminate.
    do 6 (destruct p; try discriminate).
    destruct tl; [discriminate |].
    destruct (forallb _ _); congruence. }
  repeat split; [discriminate | assumption | now exists tl].
Qed.

Lemma trimStart_id s :
  (forall c, head s = Some c -> isTrimmable c = false) -> trimStart s = s.
Proof.
  destruct s as [|c s]; [reflexivity |].
  simpl. intros H. now rewrite (H c eq_refl).
Qed.

Lemma head_rev_last (s : jstring) c : head (rev s) = Some c -> last s = Some c.
Proof.
  destruct s as [|x s _] using rev_ind; [discriminate |].
  rewrite rev_app_distr, last_snoc. simpl. auto.
Qed.

Lemma trim_id s : isTrimmed s -> trim s = s.
Proof.
  intros [Hh Hl]. unfold trim, trimEnd.
  rewrite (trimStart_id s Hh), trimStart_id; [apply rev_involutive |].
  intros c Hc. apply Hl. now apply head_rev_last.
Qed.

End TurnIdFacts.

(** On the integers that a number holds one by one, those up to 2^53,
    [String] prints the decimal numeral. *)
Lemma toString_safe_integer m :
  0 <= m <= 2 ^ 53 -> Float64.toString m = numberToString m.
Proof.
  intros Hm. unfold Float64.toString, Float64.roundInteger.
  destruct (Z.ltb_spec m (2 ^ 53)) as [Hlt | Hge].
  - now replace (m <=? 2 ^ 53) with true by (symmetry; apply Z.leb_le; lia).
  - assert (m = 2 ^ 53) as -> by lia. vm_compute. reflexivity.
Qed.

(** C10, as the code has it.  [makeStableTurnId] clamps at zero, and on
    every integer index up to 2^53, the negative ones included, its result
    is ["u-"] followed by the decimal numeral, without leading zeros, of
    [max(0, index)]; an index that is negative (or zero) gives ["u-0"].
    There the numbers of JavaScript and the integers print alike, so the
    function on integers gives the same id. *)
Theorem makeStableTurnId_clamps (index : Z) :
  index <= 2 ^ 53 ->
  exists digits,
    Float64.makeStableTurnId index = js "u-" ++ digits
    /\ canonicalNumeral digits
    /\ digitsValue digits = Z.max 0 index
    /\ (index <= 0 -> Float64.makeStableTurnId index = js "u-0")
    /\ Float64.makeStableTurnId index = makeStableTurnId index.
Proof.
  intros Hsafe.
  assert (Hstr : Float64.toString (Z.max 0 index)
                 = numberToString (Z.max 0 index))
    by (apply toString_safe_integer; lia).
  exists (numberToString (Z.max 0 index)).
  destruct (numberToString_nonneg (Z.max 0 index)) as [Hc Hv]; [lia |].
  unfold Float64.makeStableTurnId. rewrite Hstr.
  repeat split; try assumption; try apply Hc.
  intros Hneg. now replace (Z.max 0 index) with 0 by lia.
Qed.

Lemma makeStableTurnId_clamps_witness :
  -5 <= 2 ^ 53 /\ Float64.makeStableTurnId (-5) = js "u-0".
Proof.
  assert (Hsafe : -5 <= 2 ^ 53) by lia.
  split; [exact Hsafe |].
  destruct (makeStableTurnId_clamps (-5) Hsafe) as (digits & _ & _ & _ & H & _).
  apply H. lia.
Defined.

(** C10 as the specification has it fails above 2^53.  2^64 and 10^21 are
    numbers of JavaScript as they stand.  The id of 2^64 ends in the
    seventeen digits that tell this number from its neighbours and three
    zeros, which is not the numeral of 2^64; the id of 10^21 is in
    exponent notation and no numeral at all. *)
Lemma makeStableTurnId_counterexample :
  (Float64.roundInteger (2 ^ 64) = Some (2 ^ 64)
   /\ Float64.makeStableTurnId (2 ^ 64) = js "u-18446744073709552000"
   /\ Float64.makeStableTurnId (2 ^ 64)
      <> js "u-" ++ numberToString (Z.max 0 (2 ^ 64))
   /\ digitsValue (js "18446744073709552000") <> Z.max 0 (2 ^ 64))
  /\ (Float64.roundInteger (10 ^ 21) = Some (10 ^ 21)
      /\ Float64.makeStableTurnId (10 ^ 21) = js "u-1e+21"
      /\ ~ exists digits,
             Float64.makeStableTurnId (10 ^ 21) = js "u-" ++ digits
             /\ allDigits digits).
Proof.
  split; [split; [| split; [| split]] | split; [| split]].
  - vm_compute. reflexivity.
  - vm_compute. reflexivity.
  - vm_compute. discriminate.
  - vm_compute. discriminate.
  - vm_compute. reflexivity.
  - vm_compute. reflexivity.
  - intros (digits & Hid & Hds).
    assert (Hv : Float64.makeStableTurnId (10 ^ 21) = js "u-1e+21")
      by (vm_compute; reflexivity).
    rewrite Hv in Hid. injection Hid as <-.
    apply Forall_cons in Hds as [_ Hds]. apply Forall_cons in Hds as [He _].
    discriminate He.
Qed.

(** C8, as the code has it.  [normalizeTurnId] first trims white space
    from both ends.  A trimmed string ["u-<digits>-<suffix>"], the suffix
    not empty and without a line terminator, becomes ["u-<digits>"]; a
    trimmed string that does not begin with ["u-<digits>"] is returned as
    trimmed, which is the input itself when the input has no white space
    at its ends. *)
Theorem normalizeTurnId_trimmed (s : jstring) :
  (forall digits suffix,
      digits <> [] -> allDigits digits ->
      suffix <> [] -> forallb (fun c => negb (isLineTerminator c)) suffix = true ->
      trim s = str_u_dash ++ digits ++ [45%N] ++ suffix ->
      normalizeTurnId s = str_u_dash ++ digits)
  /\ (~ hasUserPrefix (trim s) -> normalizeTurnId s = trim s)
  /\ (~ hasUserPrefix s -> isTrimmed s -> normalizeTurnId s = s).
Proof.
  assert (Hno : ~ hasUserPrefix (trim s) -> normalizeTurnId s = trim s).
  { intros Hn. unfold normalizeTurnId.
    destruct (USER_TURN_ID_RE_exec (trim s)) as [ds|] eqn:He; [| reflexivity].
    exfalso. apply Hn. apply exec_matches in He as (? & ? & rest & ?).
    now exists ds, rest. }
  split; [| split; [exact Hno |]].
  - intros digits suffix Hne Hds Hsuf Hlt Ht.
    unfold normalizeTurnId. rewrite Ht.
    unfold USER_TURN_ID_RE_exec, str_u_dash. cbn [app].
    rewrite spanDigits_app; [| assumption | now intros c [= <-]].
    destruct digits; [congruence |].
    destruct suffix; [congruence |].
    cbn [app]. now rewrite Hlt.
  - intros Hn Ht. rewrite <- (trim_id s Ht) at 2.
    apply Hno. now rewrite (trim_id s Ht).
Qed.

Lemma normalizeTurnId_trimmed_witness :
  normalizeTurnId (js " u-12-xyz ") = js "u-12"
  /\ normalizeTurnId (js " custom-id ") = js "custom-id"
  /\ normalizeTurnId (js "custom-id") = js "custom-id".
Proof.
  split; [| split].
  - apply (proj1 (normalizeTurnId_trimmed (js " u-12-xyz "))
             (js "12") (js "xyz"));
      [discriminate | repeat constructor | discriminate | reflexivity | reflexivity].
  - apply (proj1 (proj2 (normalizeTurnId_trimmed (js " custom-id ")))).
    intros (ds & rest & _ & _ & H). discriminate H.
  - apply (proj2 (proj2 (normalizeTurnId_trimmed (js "custom-id")))).
    + intros (ds & rest & _ & _ & H). discriminate H.
    + split; intros c [= <-]; reflexivity.
Defined.

(** C8 as worded fails twice: a string that does not begin with
    ["u-<digits>"] but has white space at an end is not returned
    unchanged, and a legacy suffix holding a line break is not stripped. *)
Lemma normalizeTurnId_counterexample :
  (~ hasUserPrefix (js " custom-id")
   /\ normalizeTurnId (js " custom-id") <> js " custom-id")
  /\ normalizeTurnId (js "u-1-a" ++ [10%N] ++ js "b") <> js "u-1".
Proof.
  split; [split |].
  - intros (ds & rest & _ & _ & H). discriminate H.
  - discriminate.
  - discriminate.
Qed.

(** ** branching.ts: the fork plan *)

Lemma foldl_setAdd_elem xs x : forall seen,
  x ∈ foldl setAdd seen xs <-> x ∈ seen \/ x ∈ xs.
Proof.
  induction xs as [|a xs IH]; intros seen; simpl.
  - rewrite elem_of_nil. tauto.
  - rewrite IH, elem_of_cons. unfold setAdd. case_bool_decide.
    + split; [tauto |]. intros [H1 | [-> | H2]]; auto.
    + rewrite elem_of_app, list_elem_of_singleton. tauto.
Qed.

Lemma arrayFromSet_elem xs x : x ∈ arrayFromSet xs <-> x ∈ xs.
Proof.
  unfold arrayFromSet. rewrite foldl_setAdd_elem, elem_of_nil. tauto.
Qed.

Lemma arrayFromSet_snoc xs z :
  arrayFromSet (xs ++ [z]) = setAdd (arrayFromSet xs) z.
Proof. unfold arrayFromSet. now rewrite foldl_app. Qed.

(** Whatever stands before the first occurrence of [y] in [xs] stands
    before [y] in [arrayFromSet xs]. *)
Lemma arrayFromSet_first xs : forall l1 y l2,
  arrayFromSet xs = l1 ++ y :: l2 ->
  exists p q, xs = p ++ y :: q /\ forall x, x ∈ p -> x ∈ l1.
Proof.
  induction xs as [|z xs IH] using rev_ind; intros l1 y l2 H.
  - destruct l1; discriminate.
  - rewrite arrayFromSet_snoc in H. unfold setAdd in H.
    case_bool_decide as Hz.
    + destruct (IH _ _ _ H) as (p & q & -> & Hp).
      exists p, (q ++ [z]). split; [now rewrite <- app_assoc | assumption].
    + destruct l2 as [|w l2 _] using rev_ind.
      * apply app_inj_tail in H as [<- <-].
        exists xs, []. split; [reflexivity |].
        intros x Hx. now apply arrayFromSet_elem.
      * change (l1 ++ y :: l2 ++ [w]) with (l1 ++ (y :: l2) ++ [w]) in H.
        rewrite app_assoc in H. apply app_inj_tail in H as [H <-].
        destruct (IH _ _ _ H) as (p & q & -> & Hp).
        exists p, (q ++ [z]). split; [now rewrite <- app_assoc | assumption].
Qed.

Section ForkPlanFacts.

Variable groups : gmap jstring (list ForkNode).

Let size (g : jstring) : nat := length (groupNodesOf groups g).

(** The loop keeps the first group of greatest size among those seen. *)
Lemma foldl_betterGroup rest : forall best l1 l2,
  (forall g, g ∈ l1 -> (size g < size best)%nat) ->
  (forall g, g ∈ l2 -> (size g <= size best)%nat) ->
  let result := foldl (betterGroup groups) (best, groupNodesOf groups best) rest in
  result.2 = groupNodesOf groups result.1
  /\ exists k1 k2,
      l1 ++ best :: l2 ++ rest = k1 ++ result.1 :: k2
      /\ (forall g, g ∈ k1 -> (size g < size result.1)%nat)
      /\ (forall g, g ∈ k2 -> (size g <= size result.1)%nat).
Proof.
  induction rest as [|g rest IH]; intros best l1 l2 H1 H2; simpl.
  - split; [reflexivity |]. exists l1, l2. now rewrite app_nil_r.
  - unfold betterGroup at 2 4 6 8 10. simpl.
    destruct (length (groupNodesOf groups best) <? length (groupNodesOf groups g))%nat
      eqn:Hlt.
    + apply Nat.ltb_lt in Hlt.
      destruct (IH g (l1 ++ best :: l2) []) as (Hr & k1 & k2 & Heq & Hk1 & Hk2).
      * intros x. rewrite elem_of_app, elem_of_cons.
        intros [Hx | [-> | Hx]]; [apply H1 in Hx | | apply H2 in Hx];
          unfold size in *; lia.
      * intros x Hx. now apply elem_of_nil in Hx.
      * split; [exact Hr |]. exists k1, k2. split; [| now split].
        rewrite <- Heq. simpl. now rewrite <- app_assoc.
    + apply Nat.ltb_ge in Hlt.
      destruct (IH best l1 (l2 ++ [g])) as (Hr & k1 & k2 & Heq & Hk1 & Hk2).
      * assumption.
      * intros x. rewrite elem_of_app, list_elem_of_singleton.
        intros [Hx | ->]; [now apply H2 | exact Hlt].
      * split; [exact Hr |]. exists k1, k2. split; [| now split].
        rewrite <- Heq. now rewrite <- app_assoc.
Qed.

Lemma bestGroup_first_max groupIds :
  groupIds <> [] ->
  (bestGroup groups groupIds).2 = groupNodesOf groups (bestGroup groups groupIds).1
  /\ exists k1 k2,
      groupIds = k1 ++ (bestGroup groups groupIds).1 :: k2
      /\ (forall g, g ∈ k1 -> (size g < size (bestGroup groups groupIds).1)%nat)
      /\ (forall g, g ∈ k2 -> (size g <= size (bestGroup groups groupIds).1)%nat).
Proof.
  destruct groupIds as [|first rest]; [congruence | intros _].
  assert (Hb : bestGroup groups (first :: rest)
               = foldl (betterGroup groups) (first, groupNodesOf groups first) rest).
  { unfold bestGroup. simpl. unfold betterGroup at 2. simpl.
    now rewrite Nat.ltb_irrefl. }
  rewrite Hb.
  destruct (foldl_betterGroup rest first [] [])
    as (Hr & k1 & k2 & Heq & Hk1 & Hk2);
    try (intros g Hg; now apply elem_of_nil in Hg).
  split; [exact Hr |]. now exists k1, k2.
Qed.

End ForkPlanFacts.

Lemma maxForkIndexOf_acc l : forall acc,
  let m := foldl (fun max node => Z.max max (forkIndex node)) acc l in
  acc <= m
  /\ (forall n, n ∈ l -> forkIndex n <= m)
  /\ (m = acc \/ exists n, n ∈ l /\ forkIndex n = m).
Proof.
  induction l as [|x l IH]; intros acc; simpl.
  - split; [lia |]. split; [| now left].
    intros n Hn. now apply elem_of_nil in Hn.
  - destruct (IH (Z.max acc (forkIndex x))) as (H1 & H2 & H3).
    split; [lia |]. split.
    + intros n [-> | Hn]%elem_of_cons; [lia | now apply H2].
    + destruct H3 as [H3 | (n & Hn & H3)].
      * destruct (Z.max_spec acc (forkIndex x)) as [[_ Hm] | [_ Hm]].
        -- right. exists x. split; [apply elem_of_cons; now left | lia].
        -- left. lia.
      * right. exists n. split; [apply elem_of_cons; now right | assumption].
Qed.

Lemma maxForkIndexOf_bounds l :
  0 <= maxForkIndexOf l
  /\ (forall n, n ∈ l -> forkIndex n <= maxForkIndexOf l)
  /\ (maxForkIndexOf l = 0 \/ exists n, n ∈ l /\ forkIndex n = maxForkIndexOf l).
Proof. apply (maxForkIndexOf_acc l 0). Qed.

Lemma maxForkIndexOf_mono l l' :
  (forall n, n ∈ l -> n ∈ l') -> maxForkIndexOf l <= maxForkIndexOf l'.
Proof.
  intros Hsub.
  destruct (maxForkIndexOf_bounds l) as (_ & _ & [-> | (n & Hn & <-)]).
  - apply maxForkIndexOf_bounds.
  - now apply maxForkIndexOf_bounds, Hsub.
Qed.

(** What [resolveForkPlan] returns when some node matches the turn. *)
Lemma resolveForkPlan_matching conv turn convNodes groups mk :
  List.filter (sameTurn (normalizeTurnId turn)) convNodes <> [] ->
  let plan := resolveForkPlan conv turn convNodes groups mk in
  let groupIds :=
    arrayFromSet (map forkGroupId
                    (List.filter (sameTurn (normalizeTurnId turn)) convNodes)) in
  planForkGroupId plan = (bestGroup groups groupIds).1
  /\ nextForkIndex plan
     = maxForkIndexOf (groupNodesOf groups (planForkGroupId plan)) + 1.
Proof.
  intros Hne plan groupIds. subst plan. unfold resolveForkPlan.
  destruct (List.filter _ convNodes) as [|n0 matching] eqn:Hm; [congruence |].
  cbn [length Nat.eqb].
  assert (Hids : groupIds <> []).
  { intros Hnil. assert (Hin : forkGroupId n0 ∈ groupIds).
    { apply arrayFromSet_elem. simpl. apply elem_of_cons. now left. }
    rewrite Hnil in Hin. now apply elem_of_nil in Hin. }
  destruct (bestGroup_first_max groups groupIds Hids) as (Hnodes & _).
  fold groupIds. destruct (bestGroup groups groupIds) as [bid bnodes].
  simpl in *. now subst bnodes.
Qed.

Lemma map_fmap {A B} (f : A -> B) (l : list A) : map f l = f <$> l.
Proof. induction l as [|a l IH]; [reflexivity |]. csimpl. now rewrite <- IH. Qed.

Lemma groupNodesOf_size groups g :
  length (groupNodesOf groups g) = recordSize groups g.
Proof. unfold groupNodesOf, recordSize. now destruct (groups !! g). Qed.

(** C4.  When some node of the conversation matches the normalised turn,
    the group of the plan is, among the groups those nodes refer to, the
    one with the most entries in the groups record (a group without a
    record counts as empty), and of several such the one the matching
    nodes list first. *)
Theorem resolveForkPlan_largest_group conv turn convNodes groups mk :
  List.filter (sameTurn (normalizeTurnId turn)) convNodes <> [] ->
  firstLargestGroup groups
    (List.filter (sameTurn (normalizeTurnId turn)) convNodes)
    (planForkGroupId (resolveForkPlan conv turn convNodes groups mk)).
Proof.
  intros Hne.
  destruct (resolveForkPlan_matching conv turn convNodes groups mk Hne) as [Hid _].
  simpl in Hid. rewrite Hid. clear Hid.
  set (matching := List.filter _ convNodes) in *.
  set (groupIds := arrayFromSet (map forkGroupId matching)).
  assert (Hids : groupIds <> []).
  { destruct matching as [|n0 ?]; [congruence |].
    intros Hnil. assert (Hin : forkGroupId n0 ∈ groupIds).
    { apply arrayFromSet_elem. simpl. apply elem_of_cons. now left. }
    rewrite Hnil in Hin. now apply elem_of_nil in Hin. }
  destruct (bestGroup_first_max groups groupIds Hids) as (_ & k1 & k2 & Heq & Hk1 & Hk2).
  set (chosen := (bestGroup groups groupIds).1) in *.
  destruct (arrayFromSet_first _ _ _ _ Heq) as (p & q & Hpq & Hp).
  rewrite map_fmap in Hpq.
  assert (Hi : (forkGroupId <$> matching) !! length p = Some chosen).
  { rewrite Hpq. apply list_lookup_middle. reflexivity. }
  rewrite list_lookup_fmap in Hi.
  apply fmap_Some in Hi as (node & Hnode & Hg).
  exists (length p), node. split; [assumption |]. split; [now symmetry |]. split.
  - intros j other Hj. rewrite <- !groupNodesOf_size.
    assert (Hin : forkGroupId other ∈ groupIds).
    { apply arrayFromSet_elem. rewrite map_fmap.
      apply list_elem_of_fmap. exists other. split; [reflexivity |].
      apply list_elem_of_lookup. now exists j. }
    rewrite Heq in Hin.
    apply elem_of_app in Hin as [Hin | Hin]; [apply Hk1 in Hin; lia |].
    apply elem_of_cons in Hin as [-> | Hin]; [lia | now apply Hk2].
  - intros j other Hj Hlt. rewrite <- !groupNodesOf_size. apply Hk1, Hp.
    apply list_elem_of_lookup. exists j.
    assert (Hj' : (forkGroupId <$> matching) !! j = Some (forkGroupId other)).
    { rewrite list_lookup_fmap, Hj. reflexivity. }
    rewrite Hpq in Hj'. now rewrite lookup_app_l in Hj'.
Qed.

Lemma resolveForkPlan_largest_group_witness :
  firstLargestGroup planGroups
    (List.filter (sameTurn (normalizeTurnId (js "u-0"))) planNodes)
    (planForkGroupId
       (resolveForkPlan (js "conv-1") (js "u-0") planNodes planGroups
          (fun _ => js "new-group"))).
Proof.
  apply (resolveForkPlan_largest_group (js "conv-1") (js "u-0") planNodes
           planGroups (fun _ => js "new-group")).
  vm_compute. discriminate.
Defined.

Example resolveForkPlan_tie_first :
  resolveForkPlan (js "conv-1") (js "u-0") planNodes planGroups
    (fun _ => js "new-group")
  = mkForkPlan (js "group-b") 0 5.
Proof. vm_compute. reflexivity. Qed.

(** C5.  When some node of the conversation matches the normalised turn,
    [nextForkIndex] is above every [forkIndex] of the chosen group's node
    list; it is the greatest of them plus one when that list is not empty
    and its indices are, as in the data model, not negative, and 1 when
    the list is empty.  Of two calls, the second chosen list holding every
    node of the first, the second never returns a smaller
    [nextForkIndex], nor one that a node of the first list carries. *)
Theorem resolveForkPlan_next_index conv turn convNodes groups mk :
  let plan := resolveForkPlan conv turn convNodes groups mk in
  let chosen := groupNodesOf groups (planForkGroupId plan) in
  List.filter (sameTurn (normalizeTurnId turn)) convNodes <> [] ->
  (forall n, n ∈ chosen -> forkIndex n < nextForkIndex plan)
  /\ (chosen <> [] -> (forall n, n ∈ chosen -> 0 <= forkIndex n) ->
      maxForkIndexPlusOne chosen (nextForkIndex plan))
  /\ (chosen = [] -> nextForkIndex plan = 1)
  /\ (forall conv' turn' convNodes' groups' mk',
        let plan' := resolveForkPlan conv' turn' convNodes' groups' mk' in
        let chosen' := groupNodesOf groups' (planForkGroupId plan') in
        List.filter (sameTurn (normalizeTurnId turn')) convNodes' <> [] ->
        (forall n, n ∈ chosen -> n ∈ chosen') ->
        nextForkIndex plan <= nextForkIndex plan'
        /\ forall n, n ∈ chosen -> forkIndex n < nextForkIndex plan').
Proof.
  intros plan chosen Hne.
  destruct (resolveForkPlan_matching conv turn convNodes groups mk Hne) as [_ Hnext].
  simpl in Hnext. fold plan in Hnext. fold chosen in Hnext.
  destruct (maxForkIndexOf_bounds chosen) as (H0 & Hub & Hmax).
  split; [| split; [| split]].
  - intros n Hn. apply Hub in Hn. lia.
  - intros Hchosen Hnonneg. destruct Hmax as [Hz | (top & Htop & Hmax)].
    + destruct chosen as [|top rest] eqn:Hc; [congruence |].
      assert (Htop : top ∈ top :: rest) by (apply elem_of_cons; now left).
      exists top. split; [assumption |].
      pose proof (Hub top Htop). pose proof (Hnonneg top Htop).
      split; [lia |]. intros n Hn. apply Hub in Hn. lia.
    + exists top. split; [assumption |]. split; [lia |].
      intros n Hn. apply Hub in Hn. lia.
  - intros Hnil. rewrite Hnext, Hnil. reflexivity.
  - intros conv' turn' convNodes' groups' mk' plan' chosen' Hne' Hsub.
    destruct (resolveForkPlan_matching conv' turn' convNodes' groups' mk' Hne')
      as [_ Hnext'].
    simpl in Hnext'. fold plan' in Hnext'. fold chosen' in Hnext'.
    pose proof (maxForkIndexOf_mono chosen chosen' Hsub) as Hmono.
    split; [lia |]. intros n Hn. apply Hub in Hn. lia.
Qed.

Lemma resolveForkPlan_next_index_witness :
  maxForkIndexPlusOne
    (groupNodesOf planGroups (js "group-b"))
    (nextForkIndex
       (resolveForkPlan (js "conv-1") (js "u-0") planNodes planGroups
          (fun _ => js "new-group"))).
Proof.
  refine (proj1 (proj2 (resolveForkPlan_next_index (js "conv-1") (js "u-0")
            planNodes planGroups (fun _ => js "new-group") _)) _ _).
  - vm_compute. discriminate.
  - vm_compute. discriminate.
  - intros n Hn. vm_compute in Hn.
    apply elem_of_cons in Hn as [-> | Hn]; [vm_compute; discriminate |].
    apply elem_of_cons in Hn as [-> | Hn]; [vm_compute; discriminate |].
    now apply elem_of_nil in Hn.
Defined.

(** ** branching.ts: the branches on display *)

Section DisplayOrder.

Lemma displayOrder_refl a : displayOrder a a.
Proof. unfold displayOrder. lia. Qed.

Lemma displayOrder_trans a b c :
  displayOrder a b -> displayOrder b c -> displayOrder a c.
Proof. unfold displayOrder. lia. Qed.

Lemma displayOrder_total a b : displayOrder a b \/ displayOrder b a.
Proof. unfold displayOrder. lia. Qed.

Lemma compareNodes_le a b : compareNodes a b <= 0 <-> displayOrder a b.
Proof.
  unfold compareNodes, displayOrder.
  destruct (forkIndex a =? forkIndex b) eqn:E; simpl; lia.
Qed.

End DisplayOrder.

Section InsertionOrderedMap.

Implicit Types (m : list (jstring * ForkNode)) (k : jstring) (v : ForkNode).

Lemma mapGet_mapSet_eq k v m : mapGet k (mapSet k v m) = Some v.
Proof.
  induction m as [|[k' v'] m IH]; simpl.
  - now rewrite bool_decide_eq_true_2.
  - case_bool_decide as Hk; simpl.
    + now rewrite bool_decide_eq_true_2.
    + now rewrite bool_decide_eq_false_2.
Qed.

Lemma mapGet_mapSet_ne k k' v m :
  k <> k' -> mapGet k' (mapSet k v m) = mapGet k' m.
Proof.
  intros Hne. induction m as [|[k0 v0] m IH]; simpl.
  - now rewrite bool_decide_eq_false_2.
  - case_bool_decide as Hk; simpl.
    + subst k0. now rewrite !bool_decide_eq_false_2.
    + now rewrite IH.
Qed.

Lemma mapGet_None k m : mapGet k m = None -> k ∉ map fst m.
Proof.
  induction m as [|[k' v'] m IH]; simpl.
  - intros _. apply not_elem_of_nil.
  - case_bool_decide as Hk; [discriminate |].
    intros H. apply not_elem_of_cons. split; [congruence | auto].
Qed.

Lemma mapGet_elem k v m : mapGet k m = Some v -> (k, v) ∈ m.
Proof.
  induction m as [|[k' v'] m IH]; simpl; [discriminate |].
  case_bool_decide as Hk.
  - intros [= ->]. subst. apply elem_of_cons. now left.
  - intros H. apply elem_of_cons. right. auto.
Qed.

Lemma elem_mapGet k v m : NoDup (map fst m) -> (k, v) ∈ m -> mapGet k m = Some v.
Proof.
  induction m as [|[k' v'] m IH]; simpl; intros Hnd Hin.
  - now apply elem_of_nil in Hin.
  - apply NoDup_cons in Hnd as [Hk' Hnd].
    apply elem_of_cons in Hin as [[= -> ->] | Hin].
    + now rewrite bool_decide_eq_true_2.
    + case_bool_decide as Hk; [| auto].
      subst k'. exfalso. apply Hk'.
      rewrite map_fmap. apply list_elem_of_fmap. now exists (k, v).
Qed.

Lemma mapSet_keys k v m :
  map fst (mapSet k v m)
  = match mapGet k m with
    | Some _ => map fst m
    | None => map fst m ++ [k]
    end.
Proof.
  induction m as [|[k' v'] m IH]; simpl; [reflexivity |].
  case_bool_decide as Hk; simpl; [now subst |].
  rewrite IH. now destruct (mapGet k m).
Qed.

Lemma mapSet_NoDup k v m : NoDup (map fst m) -> NoDup (map fst (mapSet k v m)).
Proof.
  intros Hnd. rewrite mapSet_keys.
  destruct (mapGet k m) eqn:Hg; [assumption |].
  apply NoDup_app. split; [assumption |]. split; [| apply NoDup_singleton].
  intros x Hx ->%list_elem_of_singleton.
  now apply mapGet_None in Hg.
Qed.

End InsertionOrderedMap.

Section Deduplication.

Lemma dedupStep_cases m node :
  dedupStep m node
  = match mapGet (conversationId node) m with
    | None => mapSet (conversationId node) node m
    | Some existing =>
        if betterThan node existing
        then mapSet (conversationId node) node m else m
    end.
Proof.
  unfold dedupStep, betterThan.
  destruct (mapGet _ m) as [existing|]; [| reflexivity].
  destruct (forkIndex node <? forkIndex existing); [reflexivity |].
  simpl. now destruct (_ && _).
Qed.

Lemma betterThan_order node existing :
  if betterThan node existing
  then displayOrder node existing else displayOrder existing node.
Proof.
  unfold betterThan, displayOrder.
  destruct (forkIndex node <? forkIndex existing) eqn:E1;
    destruct (forkIndex node =? forkIndex existing) eqn:E2;
    destruct (createdAt node <? createdAt existing) eqn:E3; simpl; lia.
Qed.

Lemma dedupInvariant_set m seen node :
  dedupInvariant m seen ->
  (forall v, mapGet (conversationId node) m = Some v -> displayOrder node v) ->
  dedupInvariant (mapSet (conversationId node) node m) (seen ++ [node]).
Proof.
  intros [Hk He Hl] Hbetter. split.
  - now apply mapSet_NoDup.
  - intros k v. destruct (decide (conversationId node = k)) as [<- | Hne].
    + rewrite mapGet_mapSet_eq. intros [= <-]. split; [reflexivity |].
      apply elem_of_app. right. now apply list_elem_of_singleton.
    + rewrite mapGet_mapSet_ne by assumption. intros Hg.
      destruct (He k v Hg). split; [assumption |]. apply elem_of_app. now left.
  - intros n [Hn | ->%list_elem_of_singleton]%elem_of_app.
    + destruct (Hl n Hn) as (v & Hv & Hord).
      destruct (decide (conversationId node = conversationId n)) as [Heq | Hne].
      * exists node. rewrite <- Heq, mapGet_mapSet_eq. split; [reflexivity |].
        rewrite <- Heq in Hv. apply (displayOrder_trans _ v); [apply Hbetter, Hv | exact Hord].
      * exists v. now rewrite mapGet_mapSet_ne.
    + exists node. rewrite mapGet_mapSet_eq. split; [reflexivity |].
      apply displayOrder_refl.
Qed.

Lemma dedupInvariant_step m seen node :
  dedupInvariant m seen -> dedupInvariant (dedupStep m node) (seen ++ [node]).
Proof.
  intros Hinv. rewrite dedupStep_cases.
  destruct (mapGet (conversationId node) m) as [existing|] eqn:Hg.
  - pose proof (betterThan_order node existing) as Hb.
    destruct (betterThan node existing).
    + apply dedupInvariant_set; [assumption |].
      intros v Hv. rewrite Hg in Hv. now injection Hv as <-.
    + destruct Hinv as [Hk He Hl]. split; [assumption | |].
      * intros k v Hv. destruct (He k v Hv). split; [assumption |].
        apply elem_of_app. now left.
      * intros n [Hn | ->%list_elem_of_singleton]%elem_of_app; [auto |].
        now exists existing.
  - apply dedupInvariant_set; [assumption |].
    intros v Hv. rewrite Hg in Hv. discriminate.
Qed.

Lemma dedupInvariant_loop nodes' : forall m seen,
  dedupInvariant m seen ->
  dedupInvariant (foldl dedupStep m nodes') (seen ++ nodes').
Proof.
  induction nodes' as [|node nodes' IH]; intros m seen Hinv; simpl.
  - now rewrite app_nil_r.
  - replace (seen ++ node :: nodes') with ((seen ++ [node]) ++ nodes')
      by now rewrite <- app_assoc.
    apply IH, dedupInvariant_step, Hinv.
Qed.

Lemma dedupInvariant_start : dedupInvariant [] [].
Proof.
  split; [constructor | discriminate |].
  intros n Hn. now apply elem_of_nil in Hn.
Qed.

End Deduplication.

Section StableSort.

Lemma insertSorted_perm cmp x l : insertSorted cmp x l ≡ₚ x :: l.
Proof.
  induction l as [|y l IH]; simpl; [reflexivity |].
  destruct (cmp x y <=? 0); [reflexivity |].
  rewrite IH. apply Permutation_swap.
Qed.

Lemma sortBy_perm cmp l : sortBy cmp l ≡ₚ l.
Proof.
  induction l as [|x l IH]; simpl; [reflexivity |].
  unfold sortBy in IH. now rewrite insertSorted_perm, IH.
Qed.

Lemma insertSorted_HdRel y x l :
  displayOrder y x -> HdRel displayOrder y l ->
  HdRel displayOrder y (insertSorted compareNodes x l).
Proof.
  intros Hyx Hhd. destruct l as [|z l]; simpl.
  - now constructor.
  - destruct (compareNodes x z <=? 0); constructor; [assumption |].
    now inversion Hhd.
Qed.

Lemma insertSorted_Sorted x l :
  Sorted displayOrder l -> Sorted displayOrder (insertSorted compareNodes x l).
Proof.
  induction l as [|y l IH]; simpl; intros Hs.
  - repeat constructor.
  - destruct (compareNodes x y <=? 0) eqn:Hc.
    + constructor; [assumption |]. constructor.
      now apply compareNodes_le, Z.leb_le.
    + apply Sorted_inv in Hs as [Hs Hhd].
      constructor; [auto |].
      apply insertSorted_HdRel; [| assumption].
      apply Z.leb_gt in Hc.
      destruct (displayOrder_total y x) as [H | H]; [assumption |].
      apply compareNodes_le in H. lia.
Qed.

Lemma sortBy_Sorted l : Sorted displayOrder (sortBy compareNodes l).
Proof.
  induction l as [|x l IH]; simpl; [constructor |].
  now apply insertSorted_Sorted.
Qed.

Lemma sortBy_StronglySorted l : StronglySorted displayOrder (sortBy compareNodes l).
Proof.
  apply Sorted_StronglySorted; [| apply sortBy_Sorted].
  intros a b c. apply displayOrder_trans.
Qed.

End StableSort.

Lemma values_keys (m : list (jstring * ForkNode)) :
  (forall k v, (k, v) ∈ m -> conversationId v = k) ->
  map conversationId (mapValues m) = map fst m.
Proof.
  induction m as [|[k v] m IH]; simpl; intros H; [reflexivity |].
  rewrite (H k v) by (apply elem_of_cons; now left).
  f_equal. apply IH. intros k' v' Hin. apply H, elem_of_cons. now right.
Qed.

(** C6.  The list [buildBranchDisplayNodes] returns names no conversation
    twice; its nodes are nodes of the input; for every node of the input
    it holds a node of the same conversation that comes no later in the
    order of display (smaller [forkIndex], or the same [forkIndex] and a
    [createdAt] not greater); and it is sorted in that order. *)
Theorem buildBranchDisplayNodes_dedup_sorted (groupNodesList : list (list ForkNode)) :
  let shown := buildBranchDisplayNodes groupNodesList in
  NoDup (map conversationId shown)
  /\ (forall r, r ∈ shown -> r ∈ concat groupNodesList)
  /\ (forall n, n ∈ concat groupNodesList ->
        exists r, r ∈ shown /\ conversationId r = conversationId n
                  /\ displayOrder r n)
  /\ StronglySorted displayOrder shown.
Proof.
  intros shown. subst shown. unfold buildBranchDisplayNodes.
  set (m := foldl dedupStep [] (concat groupNodesList)).
  destruct (dedupInvariant_loop (concat groupNodesList) [] [] dedupInvariant_start)
    as [Hk He Hl].
  fold m in Hk, He, Hl. simpl in He, Hl.
  pose proof (sortBy_perm compareNodes (mapValues m)) as Hperm.
  assert (Hvals : forall r, r ∈ mapValues m -> exists k, mapGet k m = Some r).
  { intros r Hr. unfold mapValues in Hr. rewrite map_fmap in Hr.
    apply list_elem_of_fmap in Hr as ([k v] & -> & Hin).
    exists k. now apply elem_mapGet. }
  split; [| split; [| split]].
  - rewrite map_fmap, Hperm, <- map_fmap, values_keys; [assumption |].
    intros k v Hin. now apply (He k v), elem_mapGet.
  - intros r Hr. rewrite Hperm in Hr.
    destruct (Hvals r Hr) as [k Hg]. now apply (He k r).
  - intros n Hn. destruct (Hl n Hn) as (v & Hv & Hord).
    exists v. split; [| split; [now apply (He _ v) | assumption]].
    rewrite Hperm. unfold mapValues. rewrite map_fmap.
    apply list_elem_of_fmap. exists (conversationId n, v).
    split; [reflexivity | now apply mapGet_elem].
  - apply sortBy_StronglySorted.
Qed.

(** ** markdown.ts *)

Section MarkdownFacts.

Lemma copy_turn_id (turns : list ForkExtractedTurn) :
  map (fun turn => mkTurn (user turn) (assistant turn)) turns = turns.
Proof.
  induction turns as [|[u a] turns IH]; simpl; [reflexivity | now rewrite IH].
Qed.

Lemma alter_last (f : ForkExtractedTurn -> ForkExtractedTurn) init last :
  alter f (length (init ++ [last]) - 1)%nat (init ++ [last]) = init ++ [f last].
Proof.
  rewrite length_app. simpl.
  replace (length init + 1 - 1)%nat with (length init + 0)%nat by lia.
  now rewrite alter_app_r.
Qed.

Lemma turnLines_cleared turn :
  turnLines (clearAssistant turn) = turnLines (mkTurn (user turn) None).
Proof. reflexivity. Qed.

Lemma render_cleared title init last :
  render title (init ++ [clearAssistant last])
  = render title (init ++ [mkTurn (user last) None]).
Proof.
  unfold render. rewrite !map_app. simpl. now rewrite turnLines_cleared.
Qed.

Lemma buildForkMarkdown_nonempty title turns drop :
  turns <> [] ->
  buildForkMarkdown title turns drop
  = render title
      (if drop then alter clearAssistant (length turns - 1)%nat turns else turns).
Proof.
  intros Hne. unfold buildForkMarkdown. rewrite copy_turn_id.
  destruct turns as [|t turns]; [congruence |]. simpl length.
  cbn [Nat.eqb Nat.ltb Nat.leb]. now rewrite andb_true_r.
Qed.

Lemma startsWith_spec t : forall s,
  startsWith s t = true <-> exists post, s = t ++ post.
Proof.
  induction t as [|c t IH]; intros s; simpl.
  - split; [intros _; now exists s | reflexivity].
  - destruct s as [|d s].
    + split; [discriminate | intros [post H]; discriminate].
    + rewrite andb_true_iff, N.eqb_eq, IH. split.
      * intros [-> [post ->]]. now exists post.
      * intros [post [= -> ->]]. split; [reflexivity | now exists post].
Qed.

Lemma includesb_spec s : forall t, includesb s t = true <-> includes s t.
Proof.
  induction s as [|d s IH]; intros t; simpl; rewrite orb_true_iff, startsWith_spec.
  - split.
    + intros [[post H] | H]; [| discriminate]. now exists [], post.
    + intros (pre & post & H). left. exists post.
      destruct pre; [exact H |]. discriminate.
  - rewrite IH. split.
    + intros [[post H] | (pre & post & ->)].
      * now exists [], post.
      * now exists (d :: pre), post.
    + intros (pre & post & H). destruct pre as [|d' pre].
      * left. now exists post.
      * right. injection H as <- ->. now exists pre, post.
Qed.

Lemma not_includes s t : includesb s t = false -> ~ includes s t.
Proof. intros Hb Hi. apply includesb_spec in Hi. congruence. Qed.

End MarkdownFacts.

(** C7, as the code has it.  With [dropLastAssistant] set and a list of
    turns that is not empty, [buildForkMarkdown] returns the document of
    the title, the turns before the last and the user text of the last
    turn: the last turn gets no assistant section, whatever its assistant
    text.  So the result holds that text only where this document does.
    For the empty list of turns the result is the empty string. *)
Theorem buildForkMarkdown_drops_last title init last :
  buildForkMarkdown title (init ++ [last]) true
  = buildForkMarkdown title (init ++ [mkTurn (user last) None]) false
  /\ (forall answer,
        assistant last = Some answer ->
        ~ includes
            (buildForkMarkdown title (init ++ [mkTurn (user last) None]) false)
            answer ->
        ~ includes (buildForkMarkdown title (init ++ [last]) true) answer)
  /\ (forall drop, buildForkMarkdown title [] drop = []).
Proof.
  assert (Heq : buildForkMarkdown title (init ++ [last]) true
                = buildForkMarkdown title (init ++ [mkTurn (user last) None]) false).
  { rewrite !buildForkMarkdown_nonempty by (now destruct init).
    now rewrite alter_last, render_cleared. }
  split; [exact Heq |]. split; [| reflexivity].
  intros answer _ Hnot. now rewrite Heq.
Qed.

Lemma buildForkMarkdown_drops_last_witness :
  ~ includes
      (buildForkMarkdown (js "Fork Test")
         [mkTurn (js "u1") (Some (js "a1")); mkTurn (js "u2") (Some (js "a2"))]
         true)
      (js "a2").
Proof.
  apply (proj1 (proj2 (buildForkMarkdown_drops_last (js "Fork Test")
           [mkTurn (js "u1") (Some (js "a1"))]
           (mkTurn (js "u2") (Some (js "a2")))))).
  - reflexivity.
  - apply not_includes. vm_compute. reflexivity.
Defined.

(** C7 as worded fails: a last answer that is a word of the fixed
    headings is in no turn (not even in the last question) and not in the
    title, yet it is in the result. *)
Lemma buildForkMarkdown_counterexample :
  let title := js "T" in
  let earlier := mkTurn (js "u1") (Some (js "a1")) in
  let final := mkTurn (js "u2") (Some (js "User")) in
  ~ includes title (js "User")
  /\ ~ includes (user earlier) (js "User")
  /\ ~ includes (js "a1") (js "User")
  /\ ~ includes (user final) (js "User")
  /\ includes (buildForkMarkdown title [earlier; final] true) (js "User").
Proof.
  repeat split; try (apply not_includes; vm_compute; reflexivity).
  apply includesb_spec. vm_compute. reflexivity.
Qed.

(** ** markdown.ts on the store of objects *)

Section StoreFacts.

Local Open Scope store_scope.

Lemma bind_Some {A B} (m : M A) (k : A -> M B) h a h' :
  m h = Some (a, h') -> bind m k h = k a h'.
Proof. unfold bind. now intros ->. Qed.

Ltac step H := rewrite (bind_Some _ _ _ _ _ H).

Lemma copyTurn_run (h : store) r t :
  h !! r = Some (TurnObj t) ->
  copyTurn r h = Some (length h, h ++ [TurnObj t]).
Proof.
  intros Hr. unfold copyTurn, bind, readTurn, alloc. rewrite Hr.
  now destruct t.
Qed.

(** Copying the turns reads the objects of the caller and appends the
    copies at new references. *)
Lemma mapM_copyTurn elems : forall ts (h : store),
  Forall2 (fun r t => h !! r = Some (TurnObj t)) elems ts ->
  mapM copyTurn elems h
  = Some (seq (length h) (length elems), h ++ map TurnObj ts).
Proof.
  induction elems as [|r elems IH]; intros ts h Hall.
  - apply Forall2_nil_inv_l in Hall as ->. simpl. unfold ret.
    now rewrite app_nil_r.
  - apply Forall2_cons_inv_l in Hall as (t & ts' & Hr & Hall & ->).
    cbn [mapM]. step (copyTurn_run h r t Hr).
    assert (Hall' : Forall2 (fun r' t' => (h ++ [TurnObj t]) !! r' = Some (TurnObj t'))
                      elems ts').
    { eapply Forall2_impl; [exact Hall |]. intros r' t' H'.
      now apply lookup_app_l_Some. }
    step (IH ts' (h ++ [TurnObj t]) Hall'). unfold ret.
    rewrite length_app, <- app_assoc. simpl.
    now replace (length h + 1)%nat with (S (length h)) by lia.
Qed.

Lemma mapM_readTurn ts : forall (h0 rest H : store),
  H = h0 ++ map TurnObj ts ++ rest ->
  mapM readTurn (seq (length h0) (length ts)) H = Some (ts, H).
Proof.
  induction ts as [|t ts IH]; intros h0 rest H HH; [reflexivity |].
  cbn [length seq mapM].
  assert (Hr : readTurn (length h0) H = Some (t, H)).
  { unfold readTurn. subst H. simpl. now rewrite list_lookup_middle. }
  step Hr.
  assert (Hrest : mapM readTurn (seq (S (length h0)) (length ts)) H = Some (ts, H)).
  { replace (S (length h0)) with (length (h0 ++ [TurnObj t]))
      by (rewrite length_app; simpl; lia).
    apply (IH _ rest). subst H. now rewrite <- app_assoc. }
  now step Hrest.
Qed.

(** The assignment to the last copy touches no object of the caller. *)
Lemma clear_last_copy (h : store) ts (copies : list nat) drop :
  ts <> [] ->
  copies = seq (length h) (length ts) ->
  (if drop && (0 <? length copies)%nat
   then match copies !! (length copies - 1)%nat with
        | Some lastRef => writeAssistant lastRef (Some [])
        | None => ret tt
        end
   else ret tt) (h ++ map TurnObj ts ++ [ArrayObj copies])
  = Some (tt, h ++ map TurnObj
                       (if drop then alter clearAssistant (length ts - 1)%nat ts
                        else ts)
                ++ [ArrayObj copies]).
Proof.
  intros Hne Hcopies. destruct drop; [| reflexivity].
  destruct ts as [|last init _] using rev_ind; [congruence |].
  assert (Hlen : length copies = S (length init)).
  { subst copies. rewrite length_seq, length_app. simpl. lia. }
  rewrite Hlen. cbn [andb Nat.ltb Nat.leb].
  replace (S (length init) - 1)%nat with (length init) by lia.
  assert (Hlast : copies !! length init = Some (length h + length init)%nat).
  { subst copies. apply lookup_seq. rewrite length_app. simpl. lia. }
  rewrite Hlast, alter_last, !map_app. simpl.
  unfold writeAssistant.
  replace (length h + length init)%nat with (length (h ++ map TurnObj init))
    by (rewrite length_app, length_map; lia).
  rewrite <- !app_assoc, (app_assoc h). simpl.
  rewrite list_lookup_middle by reflexivity.
  f_equal. f_equal.
  rewrite <- (Nat.add_0_r (length (h ++ map TurnObj init))).
  rewrite insert_app_r. simpl. now rewrite <- app_assoc.
Qed.

End StoreFacts.

(** C9.  Run on a store in which [turns] refers to an array of turn
    records, [buildForkMarkdown] returns (the string that the function on
    values gives for the contents of that array) and leaves every object
    that was in the store before the call as it was: the array [turns] and
    each turn record it refers to, also when [dropLastAssistant] is set.
    The assistant text is cleared in a copy made by the call. *)
Theorem buildForkMarkdownOnStore_leaves_arguments
    title turns drop (h : store) elems ts :
  h !! turns = Some (ArrayObj elems) ->
  Forall2 (fun r t => h !! r = Some (TurnObj t)) elems ts ->
  exists h',
    buildForkMarkdownOnStore title turns drop h
    = Some (buildForkMarkdown title ts drop, h')
    /\ forall r o, h !! r = Some o -> h' !! r = Some o.
Proof.
  intros Hturns Hall. unfold buildForkMarkdownOnStore.
  assert (Hra : readArray turns h = Some (elems, h)).
  { unfold readArray. now rewrite Hturns. }
  rewrite (bind_Some _ _ _ _ _ Hra).
  pose proof (Forall2_length _ _ _ Hall) as Hlen.
  destruct elems as [|r0 elems'].
  { apply Forall2_nil_inv_l in Hall as ->. exists h. now split. }
  assert (Hne : ts <> []) by (destruct ts; [discriminate | congruence]).
  set (elems := r0 :: elems') in *.
  replace (length elems =? 0)%nat with false by reflexivity.
  rewrite (bind_Some _ _ _ _ _ (mapM_copyTurn elems ts h Hall)).
  set (copies := seq (length h) (length elems)).
  set (tsf := if drop then alter clearAssistant (length ts - 1)%nat ts else ts).
  assert (Hlenf : length tsf = length ts).
  { subst tsf. destruct drop; [apply length_alter | reflexivity]. }
  unfold alloc at 1.
  rewrite (bind_Some _ _ _ _ _ eq_refl), <- app_assoc.
  assert (Hcopies : copies = seq (length h) (length ts)) by (subst copies; now rewrite Hlen).
  rewrite (bind_Some _ _ _ _ _ (clear_last_copy h ts copies drop Hne Hcopies)).
  fold tsf. set (h3 := h ++ map TurnObj tsf ++ [ArrayObj copies]).
  assert (Hrn : readArray (length (h ++ map TurnObj ts)) h3 = Some (copies, h3)).
  { unfold readArray, h3. rewrite app_assoc, list_lookup_middle; [reflexivity |].
    rewrite !length_app, !length_map. lia. }
  rewrite (bind_Some _ _ _ _ _ Hrn).
  assert (Hrd : mapM readTurn copies h3 = Some (tsf, h3)).
  { rewrite Hcopies, <- Hlenf. now apply (mapM_readTurn tsf h [ArrayObj copies]). }
  rewrite (bind_Some _ _ _ _ _ Hrd).
  exists h3. split.
  - unfold ret. now rewrite buildForkMarkdown_nonempty.
  - intros r o Hr. now apply lookup_app_l_Some.
Qed.

Lemma buildForkMarkdownOnStore_leaves_arguments_witness :
  let h := [TurnObj (mkTurn (js "u1") (Some (js "a1")));
            TurnObj (mkTurn (js "u2") (Some (js "a2")));
            ArrayObj [0; 1]%nat] in
  exists h',
    buildForkMarkdownOnStore (js "Fork Test") 2%nat true h
    = Some (buildForkMarkdown (js "Fork Test")
              [mkTurn (js "u1") (Some (js "a1")); mkTurn (js "u2") (Some (js "a2"))]
              true, h')
    /\ forall r o, h !! r = Some o -> h' !! r = Some o.
Proof.
  intros h.
  apply (buildForkMarkdownOnStore_leaves_arguments (js "Fork Test") 2%nat true h
           [0; 1]%nat).
  - reflexivity.
  - repeat constructor.
Defined.

Example buildForkMarkdownOnStore_clears_copy :
  snd <$> buildForkMarkdownOnStore (js "T") 1%nat true
            [TurnObj (mkTurn (js "u") (Some (js "a"))); ArrayObj [0; 0]%nat]
  = Some [TurnObj (mkTurn (js "u") (Some (js "a"))); ArrayObj [0; 0]%nat;
          TurnObj (mkTurn (js "u") (Some (js "a")));
          TurnObj (mkTurn (js "u") (Some []));
          ArrayObj [2; 3]%nat].
Proof. vm_compute. reflexivity. Qed.

(** ** merge.ts *)

Section MergeNodes.

Lemma sameIdentity_spec a b :
  sameIdentity a b = bool_decide (identityOf a = identityOf b).
Proof.
  unfold sameIdentity, identityOf.
  repeat case_bool_decide; simpl; congruence.
Qed.

Lemma sameIdentity_refl a : sameIdentity a a = true.
Proof. rewrite sameIdentity_spec. now apply bool_decide_eq_true_2. Qed.

Lemma filter_upsert i entry acc :
  List.filter (sameIdentity i) (upsert entry acc)
  = if sameIdentity i entry
    then pick entry (List.filter (sameIdentity i) acc)
    else List.filter (sameIdentity i) acc.
Proof.
  induction acc as [|e acc IH]; simpl.
  - now destruct (sameIdentity i entry).
  - destruct (sameIdentity e entry) eqn:Hee, (sameIdentity i entry) eqn:Hie,
      (sameIdentity i e) eqn:Hiee; simpl;
      try (destruct (createdAt e <? createdAt entry); simpl);
      rewrite ?Hie, ?Hiee, ?IH; try reflexivity;
      exfalso; rewrite sameIdentity_spec in Hee, Hie, Hiee;
      repeat match goal with
             | H : bool_decide _ = true |- _ => apply bool_decide_eq_true in H
             | H : bool_decide _ = false |- _ => apply bool_decide_eq_false in H
             end; congruence.
Qed.

Lemma filter_merge i xs : forall acc,
  List.filter (sameIdentity i) (foldl (fun acc entry => upsert entry acc) acc xs)
  = foldl (fun sameId entry => pick entry sameId)
      (List.filter (sameIdentity i) acc) (List.filter (sameIdentity i) xs).
Proof.
  induction xs as [|x xs IH]; intros acc; simpl; [reflexivity |].
  rewrite IH, filter_upsert. now destruct (sameIdentity i x).
Qed.

Lemma mergeNodes_lookup localNodes cloudNodes conv :
  mergeNodes localNodes cloudNodes !! conv
  = mergeSlot (localNodes !! conv) (cloudNodes !! conv).
Proof.
  unfold mergeNodes. rewrite lookup_merge.
  now destruct (localNodes !! conv), (cloudNodes !! conv).
Qed.

End MergeNodes.

(** C1.  Where both replicas hold, for a conversation, an entry of one
    identity (conversationId, turnId, forkGroupId), one entry each, the
    merged collection of that conversation holds exactly one entry of that
    identity: the cloud entry, whole, when its [createdAt] is strictly
    greater, and else (so also when the two are equal) the local entry,
    whatever the other fields are. *)
Theorem mergeForkNodes_winner
    (local cloud : ForkNodesData) conv localArr cloudArr localEntry cloudEntry :
  nodes local !! conv = Some localArr ->
  nodes cloud !! conv = Some cloudArr ->
  List.filter (sameIdentity localEntry) localArr = [localEntry] ->
  List.filter (sameIdentity localEntry) cloudArr = [cloudEntry] ->
  exists merged,
    nodes (mergeForkNodes (Dataset local) (Dataset cloud)) !! conv = Some merged
    /\ List.filter (sameIdentity localEntry) merged
       = [winnerOf localEntry cloudEntry].
Proof.
  intros Hl Hc Hlocal Hcloud.
  exists (mergeConversation localArr cloudArr). split.
  - simpl. now rewrite mergeNodes_lookup, Hl, Hc.
  - unfold mergeConversation.
    now rewrite filter_merge, List.filter_app, Hlocal, Hcloud.
Qed.

Lemma mergeForkNodes_winner_witness :
  let localEntry := testNode "conv1" "fork-group-1" 0 1000 "Local Title" in
  let cloudEntry := testNode "conv1" "fork-group-1" 0 1000 "Cloud Title" in
  exists merged,
    nodes (mergeForkNodes
             (Dataset (mkForkNodesData {[ js "conv1" := [localEntry] ]} ∅))
             (Dataset (mkForkNodesData {[ js "conv1" := [cloudEntry] ]} ∅)))
      !! js "conv1" = Some merged
    /\ List.filter (sameIdentity localEntry) merged = [winnerOf localEntry cloudEntry].
Proof.
  intros localEntry cloudEntry.
  apply (mergeForkNodes_winner
           (mkForkNodesData {[ js "conv1" := [localEntry] ]} ∅)
           (mkForkNodesData {[ js "conv1" := [cloudEntry] ]} ∅)
           (js "conv1") [localEntry] [cloudEntry]).
  - vm_compute. reflexivity.
  - vm_compute. reflexivity.
  - vm_compute. reflexivity.
  - vm_compute. reflexivity.
Defined.

Section RebuildGroups.

Lemma groupsInvariant_start : groupsInvariant ∅ [].
Proof.
  split.
  - intros g key. rewrite lookup_empty. simpl. split.
    + intros H. now apply elem_of_nil in H.
    + intros (n & H & _). now apply elem_of_nil in H.
  - intros g keys. now rewrite lookup_empty.
Qed.

Lemma groupsInvariant_step groups seen node :
  groupsInvariant groups seen ->
  groupsInvariant (addToGroup groups node) (seen ++ [node]).
Proof.
  intros [Hm Hn]. unfold addToGroup.
  set (members := default [] (groups !! forkGroupId node)).
  set (key := compositeKey node).
  split.
  - intros g k. destruct (decide (forkGroupId node = g)) as [<- | Hne].
    + rewrite lookup_insert_eq. simpl.
      assert (Hold : k ∈ members
                     <-> exists n, n ∈ seen /\ forkGroupId n = forkGroupId node
                                   /\ compositeKey n = k) by apply Hm.
      case_bool_decide as Hkey.
      * rewrite Hold. split.
        -- intros (n & Hin & Hg & Hk). exists n. split; [| now split].
           apply elem_of_app. now left.
        -- intros (n & [Hin | ->%list_elem_of_singleton]%elem_of_app & Hg & Hk).
           ++ now exists n.
           ++ apply Hold. now rewrite <- Hk.
      * rewrite elem_of_app, list_elem_of_singleton, Hold. split.
        -- intros [(n & Hin & Hg & Hk) | ->].
           ++ exists n. split; [| now split]. apply elem_of_app. now left.
           ++ exists node. split; [| now split].
              apply elem_of_app. right. now apply list_elem_of_singleton.
        -- intros (n & [Hin | ->%list_elem_of_singleton]%elem_of_app & Hg & Hk).
           ++ left. now exists n.
           ++ right. now symmetry.
    + rewrite lookup_insert_ne by assumption. rewrite Hm. split.
      * intros (n & Hin & Hg & Hk). exists n. split; [| now split].
        apply elem_of_app. now left.
      * intros (n & [Hin | ->%list_elem_of_singleton]%elem_of_app & Hg & Hk).
        -- now exists n.
        -- congruence.
  - intros g keys. destruct (decide (forkGroupId node = g)) as [<- | Hne].
    + rewrite lookup_insert_eq. intros [= <-].
      assert (Hmem : NoDup members).
      { subst members. destruct (groups !! forkGroupId node) as [ks|] eqn:Hks.
        - simpl. exact (proj1 (Hn _ ks Hks)).
        - constructor. }
      case_bool_decide as Hkey.
      * split; [assumption |]. intros Hnil. rewrite Hnil in Hkey.
        now apply elem_of_nil in Hkey.
      * split; [| now destruct members].
        apply NoDup_app. split; [assumption |]. split; [| apply NoDup_singleton].
        intros x Hx ->%list_elem_of_singleton. contradiction.
    + rewrite lookup_insert_ne by assumption. apply Hn.
Qed.

Lemma groupsInvariant_loop pending : forall groups seen,
  groupsInvariant groups seen ->
  groupsInvariant (foldl addToGroup groups pending) (seen ++ pending).
Proof.
  induction pending as [|node pending IH]; intros groups seen Hinv; simpl.
  - now rewrite app_nil_r.
  - replace (seen ++ node :: pending) with ((seen ++ [node]) ++ pending)
      by now rewrite <- app_assoc.
    apply IH, groupsInvariant_step, Hinv.
Qed.

Lemma allNodes_elem (index : gmap jstring (list ForkNode)) n :
  n ∈ allNodes index <-> exists conv arr, index !! conv = Some arr /\ n ∈ arr.
Proof.
  unfold allNodes. rewrite list_elem_of_In, in_concat. split.
  - intros (arr & Harr & Hin). apply in_map_iff in Harr as ([conv arr'] & <- & Hl).
    exists conv, arr'. split; [| now apply list_elem_of_In].
    now apply elem_of_map_to_list, list_elem_of_In.
  - intros (conv & arr & Hl & Hin). exists arr. split; [| now apply list_elem_of_In].
    apply in_map_iff. exists (conv, arr). split; [reflexivity |].
    now apply list_elem_of_In, elem_of_map_to_list.
Qed.

End RebuildGroups.

(** C2.  In every result of [mergeForkNodes] the groups index is the
    projection of the nodes index: the list of a group holds the composite
    keys ["conversationId:turnId"] of the nodes of the merged nodes index
    with that [forkGroupId] and nothing else, without a repeated key (and
    a group that has a list has a node); and the result does not depend on
    the groups indices of the two replicas. *)
Theorem mergeForkNodes_groups_projection (local cloud : MergeInput) :
  let merged := mergeForkNodes local cloud in
  (forall g key,
      key ∈ default [] (groups merged !! g)
      <-> exists conv arr n,
            nodes merged !! conv = Some arr /\ n ∈ arr
            /\ forkGroupId n = g /\ compositeKey n = key)
  /\ (forall g keys, groups merged !! g = Some keys -> NoDup keys /\ keys <> [])
  /\ (forall localNodes cloudNodes localGroups cloudGroups localGroups' cloudGroups',
        mergeForkNodes (Dataset (mkForkNodesData localNodes localGroups))
                       (Dataset (mkForkNodesData cloudNodes cloudGroups))
        = mergeForkNodes (Dataset (mkForkNodesData localNodes localGroups'))
                         (Dataset (mkForkNodesData cloudNodes cloudGroups'))).
Proof.
  intros merged. subst merged. unfold mergeForkNodes. simpl.
  set (mergedNodes := mergeNodes _ _).
  destruct (groupsInvariant_loop (allNodes mergedNodes) ∅ [] groupsInvariant_start)
    as [Hm Hn].
  simpl in Hm. fold (rebuildGroups mergedNodes) in Hm, Hn.
  split; [| split; [exact Hn | reflexivity]].
  intros g key. rewrite Hm. split.
  - intros (n & Hin & Hg & Hk). apply allNodes_elem in Hin as (conv & arr & Hl & Hin).
    now exists conv, arr, n.
  - intros (conv & arr & n & Hl & Hin & Hg & Hk). exists n.
    split; [| now split]. apply allNodes_elem. now exists conv, arr.
Qed.

(** * Further properties of the code *)

(** ** turnId.ts and its callers *)

Section TrimFacts.

Lemma trimStart_head s c : head (trimStart s) = Some c -> isTrimmable c = false.
Proof.
  induction s as [|d s IH]; simpl; [discriminate |].
  destruct (isTrimmable d) eqn:Hd; [exact IH |].
  simpl. now intros [= <-].
Qed.

Lemma trimStart_split s :
  exists pre, s = pre ++ trimStart s /\ forallb isTrimmable pre = true.
Proof.
  induction s as [|d s (pre & Hs & Hpre)]; simpl; [now exists [] |].
  destruct (isTrimmable d) eqn:Hd.
  - exists (d :: pre). simpl. rewrite Hd, Hpre. split; [now f_equal | reflexivity].
  - now exists [].
Qed.

Lemma last_rev_head (s : jstring) : last (rev s) = head s.
Proof.
  destruct s as [|c s]; [reflexivity |]. simpl. apply last_snoc.
Qed.

Lemma head_rev_eq (s : jstring) : head (rev s) = last s.
Proof. now rewrite <- (rev_involutive s) at 2; rewrite last_rev_head. Qed.

Lemma trim_isTrimmed s : isTrimmed (trim s).
Proof.
  unfold trim, trimEnd. set (t := trimStart s).
  destruct (trimStart_split (rev t)) as (pre & Hrev & _).
  set (u := trimStart (rev t)) in *.
  split; intros c Hc.
  - rewrite head_rev_eq in Hc.
    destruct u as [|u0 u'] eqn:Hu; [discriminate |].
    assert (Hlast : last (rev t) = Some c).
    { rewrite Hrev, last_app. now rewrite Hc. }
    rewrite last_rev_head in Hlast. now apply (trimStart_head s).
  - rewrite last_rev_head in Hc. now apply (trimStart_head (rev t)).
Qed.

Lemma trim_idempotent s : trim (trim s) = trim s.
Proof. apply trim_id, trim_isTrimmed. Qed.

Lemma digit_not_trimmable c : isDigit c = true -> isTrimmable c = false.
Proof.
  unfold isDigit, isTrimmable, isWhiteSpace, isLineTerminator.
  intros [H1 H2]%andb_true_iff. apply N.leb_le in H1, H2.
  repeat match goal with
         | |- context [(c =? ?k)%N] =>
             replace (c =? k)%N with false by (symmetry; apply N.eqb_neq; lia)
         end.
  replace (8192 <=? c)%N with false by (symmetry; apply N.leb_gt; lia).
  reflexivity.
Qed.

End TrimFacts.

Lemma userId_isTrimmed digits :
  digits <> [] -> allDigits digits -> isTrimmed (str_u_dash ++ digits).
Proof.
  intros Hne Hds. split; intros c Hc.
  - injection Hc as <-. reflexivity.
  - destruct digits as [|d ds _] using rev_ind; [congruence |].
    change (str_u_dash ++ ds ++ [d]) with ((117%N :: 45%N :: ds) ++ [d]) in Hc.
    rewrite last_snoc in Hc. injection Hc as <-.
    apply digit_not_trimmable.
    apply Forall_app in Hds as [_ Hd]. now inversion Hd.
Qed.

Lemma normalizeTurnId_userId digits :
  digits <> [] -> allDigits digits ->
  normalizeTurnId (str_u_dash ++ digits) = str_u_dash ++ digits.
Proof.
  intros Hne Hds. unfold normalizeTurnId.
  rewrite (trim_id _ (userId_isTrimmed digits Hne Hds)).
  unfold USER_TURN_ID_RE_exec, str_u_dash. cbn [app].
  rewrite <- (app_nil_r digits) at 1.
  rewrite spanDigits_app; [| assumption | discriminate].
  now destruct digits.
Qed.

Lemma makeStableTurnId_digits index :
  exists digits,
    makeStableTurnId index = str_u_dash ++ digits
    /\ digits <> [] /\ allDigits digits /\ digitsValue digits = Z.max 0 index.
Proof.
  exists (numberToString (Z.max 0 index)).
  destruct (numberToString_nonneg (Z.max 0 index)) as [[Hall Hcan] Hv]; [lia |].
  repeat split; try assumption.
  destruct Hcan as [-> | (c & rest & -> & _)]; discriminate.
Qed.

(** X1.  An id made by [makeStableTurnId] is left as it is by
    [normalizeTurnId]. *)
Theorem normalizeTurnId_makeStableTurnId (index : Z) :
  normalizeTurnId (makeStableTurnId index) = makeStableTurnId index.
Proof.
  destruct (makeStableTurnId_digits index) as (digits & -> & Hne & Hds & _).
  now apply normalizeTurnId_userId.
Qed.

(** X2.  [normalizeTurnId] is idempotent: a normalised id is its own
    normal form. *)
Theorem normalizeTurnId_idempotent (s : jstring) :
  normalizeTurnId (normalizeTurnId s) = normalizeTurnId s.
Proof.
  assert (Hs : normalizeTurnId s
               = match USER_TURN_ID_RE_exec (trim s) with
                 | None => trim s
                 | Some digits => str_u_dash ++ digits
                 end) by reflexivity.
  destruct (USER_TURN_ID_RE_exec (trim s)) as [digits|] eqn:He; rewrite Hs.
  - apply exec_matches in He as (Hne & Hds & _).
    now apply normalizeTurnId_userId.
  - unfold normalizeTurnId. now rewrite trim_idempotent, He.
Qed.

(** X3.  Two indices get the same stable id exactly when they are equal
    after the clamping at zero; so the ids of different positions (0, 1,
    2, ...) are different. *)
Theorem makeStableTurnId_same_id (i j : Z) :
  makeStableTurnId i = makeStableTurnId j <-> Z.max 0 i = Z.max 0 j.
Proof.
  split.
  - intros Heq.
    destruct (numberToString_nonneg (Z.max 0 i)) as [_ Hi]; [lia |].
    destruct (numberToString_nonneg (Z.max 0 j)) as [_ Hj]; [lia |].
    unfold makeStableTurnId in Heq. apply app_inv_head in Heq.
    now rewrite <- Hi, <- Hj, Heq.
  - intros Heq. unfold makeStableTurnId. now rewrite Heq.
Qed.

Lemma ensureTurnId_cases (datasetTurnId : option jstring) (index : Z) :
  ensureTurnId datasetTurnId index
  = if bool_decide (normalizeTurnId (default [] datasetTurnId)
                    = makeStableTurnId index)
    then (makeStableTurnId index, datasetTurnId)
    else (makeStableTurnId index, Some (makeStableTurnId index)).
Proof.
  unfold ensureTurnId.
  assert (Hcur : orElse (default [] datasetTurnId) [] = default [] datasetTurnId)
    by (now destruct (default [] datasetTurnId)).
  rewrite Hcur. now repeat case_bool_decide.
Qed.

(** X4.  [ensureTurnId] returns the stable id of the index and leaves in
    the element's [data-turn-id] a value that normalises to it.  A value
    that already does, a legacy id of the same index included, is not
    overwritten; and a second call changes nothing. *)
Theorem ensureTurnId_normalises (datasetTurnId : option jstring) (index : Z) :
  let '(id, dataset') := ensureTurnId datasetTurnId index in
  id = makeStableTurnId index
  /\ normalizeTurnId (default [] dataset') = makeStableTurnId index
  /\ (normalizeTurnId (default [] datasetTurnId) = makeStableTurnId index ->
      dataset' = datasetTurnId)
  /\ ensureTurnId dataset' index = (id, dataset').
Proof.
  rewrite ensureTurnId_cases. case_bool_decide as Hn.
  - repeat split; try assumption.
    rewrite ensureTurnId_cases. now rewrite bool_decide_eq_true_2.
  - pose proof (normalizeTurnId_makeStableTurnId index) as Hfix.
    repeat split; try assumption; [intros H; contradiction |].
    rewrite ensureTurnId_cases. now rewrite bool_decide_eq_true_2.
Qed.

Lemma ensureTurnId_normalises_witness :
  ensureTurnId (Some (js "u-3-abcd")) 3 = (js "u-3", Some (js "u-3-abcd")).
Proof.
  pose proof (ensureTurnId_normalises (Some (js "u-3-abcd")) 3) as H.
  destruct (ensureTurnId (Some (js "u-3-abcd")) 3) as [id dataset'].
  destruct H as (-> & _ & Hkeep & _).
  rewrite Hkeep; reflexivity.
Defined.

(** ** branching.ts: further properties *)

Lemma foldl_ext_elem {A B} (f g : A -> B -> A) (l : list B) : forall a,
  (forall a' x, x ∈ l -> f a' x = g a' x) -> foldl f a l = foldl g a l.
Proof.
  induction l as [|x l IH]; intros a H; simpl; [reflexivity |].
  rewrite (H a x) by (apply elem_of_cons; now left).
  apply IH. intros a' y Hy. apply H, elem_of_cons. now right.
Qed.

Lemma bestGroup_ext groups groups' groupIds :
  groupIds <> [] ->
  (forall g, g ∈ groupIds -> groups !! g = groups' !! g) ->
  bestGroup groups groupIds = bestGroup groups' groupIds.
Proof.
  intros Hne Hagree.
  destruct groupIds as [|first rest]; [congruence |].
  change (bestGroup groups (first :: rest))
    with (foldl (betterGroup groups) (first, groupNodesOf groups first)
            (first :: rest)).
  change (bestGroup groups' (first :: rest))
    with (foldl (betterGroup groups') (first, groupNodesOf groups' first)
            (first :: rest)).
  assert (Hfirst : groupNodesOf groups first = groupNodesOf groups' first).
  { unfold groupNodesOf. rewrite Hagree; [reflexivity |]. apply elem_of_cons. now left. }
  rewrite Hfirst. apply foldl_ext_elem.
  intros best g Hg. unfold betterGroup, groupNodesOf. now rewrite (Hagree g Hg).
Qed.

Lemma matching_groupIds_nonempty (matching : list ForkNode) :
  matching <> [] -> arrayFromSet (map forkGroupId matching) <> [].
Proof.
  destruct matching as [|n0 ?]; [congruence | intros _ Hnil].
  assert (Hin : forkGroupId n0 ∈ arrayFromSet (map forkGroupId (n0 :: matching))).
  { apply arrayFromSet_elem. simpl. apply elem_of_cons. now left. }
  rewrite Hnil in Hin. now apply elem_of_nil in Hin.
Qed.

Lemma resolveForkPlan_source conv turn convNodes groups mk :
  List.filter (sameTurn (normalizeTurnId turn)) convNodes <> [] ->
  let plan := resolveForkPlan conv turn convNodes groups mk in
  sourceForkIndex plan
  = default 0
      (forkIndex <$>
         find (fun node =>
                 bool_decide (conversationId node = conv)
                 && sameTurn (normalizeTurnId turn) node)
           (groupNodesOf groups (planForkGroupId plan))).
Proof.
  intros Hne plan. subst plan. unfold resolveForkPlan.
  pose proof (matching_groupIds_nonempty _ Hne) as Hids.
  destruct (List.filter _ convNodes) as [|n0 matching] eqn:Hm; [congruence |].
  cbn [length Nat.eqb].
  destruct (bestGroup_first_max groups _ Hids) as (Hnodes & _).
  destruct (bestGroup groups _) as [bid bnodes].
  simpl in *. now subst bnodes.
Qed.

(** X5.  In every plan the index of the new branch is above the index of
    the source branch, and it is at least 1 (index 0 is never handed out
    to a new branch). *)
Theorem resolveForkPlan_source_below_next conv turn convNodes groups mk :
  let plan := resolveForkPlan conv turn convNodes groups mk in
  sourceForkIndex plan < nextForkIndex plan /\ 1 <= nextForkIndex plan.
Proof.
  intros plan.
  destruct (List.filter (sameTurn (normalizeTurnId turn)) convNodes)
    as [|n0 matching] eqn:Hm.
  - subst plan. unfold resolveForkPlan. rewrite Hm. simpl. lia.
  - assert (Hne : List.filter (sameTurn (normalizeTurnId turn)) convNodes <> [])
      by (rewrite Hm; discriminate).
    destruct (resolveForkPlan_matching conv turn convNodes groups mk Hne) as [_ Hnext].
    pose proof (resolveForkPlan_source conv turn convNodes groups mk Hne) as Hsrc.
    simpl in Hnext, Hsrc. fold plan in Hnext, Hsrc.
    destruct (maxForkIndexOf_bounds (groupNodesOf groups (planForkGroupId plan)))
      as (H0 & Hub & _).
    rewrite Hsrc, Hnext. split; [| lia].
    destruct (find _ _) as [node|] eqn:Hfind; simpl; [| lia].
    apply find_some in Hfind as [Hin _]. apply list_elem_of_In, Hub in Hin. lia.
Qed.

(** X6.  When a node of the conversation matches the turn, the plan
    depends on the groups record only at the groups of the matching nodes,
    and not at all on the generator of fresh group ids: a caller may hand
    over just those groups. *)
Theorem resolveForkPlan_reads_matching_groups
    conv turn convNodes groups groups' mk mk' :
  List.filter (sameTurn (normalizeTurnId turn)) convNodes <> [] ->
  (forall node, node ∈ List.filter (sameTurn (normalizeTurnId turn)) convNodes ->
                groups !! forkGroupId node = groups' !! forkGroupId node) ->
  resolveForkPlan conv turn convNodes groups mk
  = resolveForkPlan conv turn convNodes groups' mk'.
Proof.
  intros Hne Hagree. unfold resolveForkPlan.
  pose proof (matching_groupIds_nonempty _ Hne) as Hids.
  destruct (List.filter _ convNodes) as [|n0 matching] eqn:Hm; [congruence |].
  cbn [length Nat.eqb].
  rewrite (bestGroup_ext groups groups'); [reflexivity | assumption |].
  intros g Hg. apply (proj1 (arrayFromSet_elem _ _)) in Hg.
  rewrite map_fmap in Hg.
  apply list_elem_of_fmap in Hg as (node & -> & Hin). now apply Hagree.
Qed.

Lemma resolveForkPlan_reads_matching_groups_witness :
  resolveForkPlan (js "conv-1") (js "u-0") planNodes planGroups (fun _ => js "x")
  = resolveForkPlan (js "conv-1") (js "u-0") planNodes
      (<[ js "other-group" := [testNode "conv-9" "other-group" 7 100 "z"] ]> planGroups)
      (fun _ => js "y").
Proof.
  apply resolveForkPlan_reads_matching_groups.
  - vm_compute. discriminate.
  - intros node Hin. rewrite lookup_insert_ne; [reflexivity |].
    vm_compute in Hin.
    repeat (apply elem_of_cons in Hin as [-> | Hin]; [vm_compute; discriminate |]).
    now apply elem_of_nil in Hin.
Defined.

Section DisplayFacts.

Lemma mapGet_absent k (m : list (jstring * ForkNode)) :
  k ∉ map fst m -> mapGet k m = None.
Proof.
  induction m as [|[k' v'] m IH]; simpl; [reflexivity |].
  intros [Hne Hk]%not_elem_of_cons. rewrite bool_decide_eq_false_2 by congruence.
  auto.
Qed.

Lemma mapSet_absent k v (m : list (jstring * ForkNode)) :
  k ∉ map fst m -> mapSet k v m = m ++ [(k, v)].
Proof.
  induction m as [|[k' v'] m IH]; simpl; [reflexivity |].
  intros [Hne Hk]%not_elem_of_cons. rewrite bool_decide_eq_false_2 by congruence.
  now rewrite IH.
Qed.

(** Nodes of different conversations are all kept, in their order. *)
Lemma dedup_distinct nodes' : forall m,
  NoDup (map fst m ++ map conversationId nodes') ->
  foldl dedupStep m nodes' = m ++ map (fun n => (conversationId n, n)) nodes'.
Proof.
  induction nodes' as [|n nodes' IH]; intros m Hnd; simpl.
  - now rewrite app_nil_r.
  - simpl in Hnd. pose proof Hnd as Hn.
    apply NoDup_app in Hn as (_ & Hdisj & _).
    assert (Habs : conversationId n ∉ map fst m).
    { intros Hin. apply (Hdisj _ Hin). apply elem_of_cons. now left. }
    rewrite dedupStep_cases, mapGet_absent, mapSet_absent by assumption.
    rewrite IH.
    + now rewrite <- app_assoc.
    + rewrite map_app. simpl. now rewrite <- app_assoc.
Qed.

Lemma sortBy_sorted_id l : Sorted displayOrder l -> sortBy compareNodes l = l.
Proof.
  induction l as [|x l IH]; intros Hs; [reflexivity |].
  apply Sorted_inv in Hs as [Hs Hhd].
  change (sortBy compareNodes (x :: l))
    with (insertSorted compareNodes x (sortBy compareNodes l)).
  rewrite (IH Hs). destruct Hhd as [|y l' Hxy]; [reflexivity |].
  simpl. apply compareNodes_le, Z.leb_le in Hxy. now rewrite Hxy.
Qed.

(** The facts about the list on display that the proofs below start from. *)
Lemma display_facts (groupNodesList : list (list ForkNode)) :
  let shown := buildBranchDisplayNodes groupNodesList in
  NoDup (map conversationId shown)
  /\ (forall c, c ∈ map conversationId shown
                <-> c ∈ map conversationId (concat groupNodesList)).
Proof.
  intros shown. subst shown. unfold buildBranchDisplayNodes.
  set (m := foldl dedupStep [] (concat groupNodesList)).
  destruct (dedupInvariant_loop (concat groupNodesList) [] [] dedupInvariant_start)
    as [Hk He Hl].
  fold m in Hk, He, Hl. simpl in He, Hl.
  pose proof (sortBy_perm compareNodes (mapValues m)) as Hperm.
  assert (Hkeys : map conversationId (mapValues m) = map fst m).
  { apply values_keys. intros k v Hin. now apply (He k v), elem_mapGet. }
  split.
  - now rewrite map_fmap, Hperm, <- map_fmap, Hkeys.
  - intros c. rewrite map_fmap, Hperm, <- map_fmap, Hkeys. split.
    + intros Hc. rewrite map_fmap in Hc.
      apply list_elem_of_fmap in Hc as ([k v] & -> & Hin).
      apply elem_mapGet in Hin; [| assumption].
      destruct (He k v Hin) as [<- Hv]. rewrite map_fmap.
      apply list_elem_of_fmap. now exists v.
    + intros Hc. rewrite map_fmap in Hc.
      apply list_elem_of_fmap in Hc as (n & -> & Hn).
      destruct (Hl n Hn) as (v & Hv & _). rewrite map_fmap.
      apply list_elem_of_fmap. exists (conversationId n, v).
      split; [reflexivity | now apply mapGet_elem].
Qed.

End DisplayFacts.

(** X7.  Displaying what was displayed changes nothing:
    [buildBranchDisplayNodes] applied to its own result, as one group,
    returns that result. *)
Theorem buildBranchDisplayNodes_idempotent (groupNodesList : list (list ForkNode)) :
  buildBranchDisplayNodes [buildBranchDisplayNodes groupNodesList]
  = buildBranchDisplayNodes groupNodesList.
Proof.
  set (shown := buildBranchDisplayNodes groupNodesList).
  destruct (display_facts groupNodesList) as [Hnd _]. fold shown in Hnd.
  assert (Hsorted : Sorted displayOrder shown) by apply sortBy_Sorted.
  unfold buildBranchDisplayNodes at 1. simpl. rewrite app_nil_r.
  rewrite (dedup_distinct shown []) by exact Hnd. simpl.
  unfold mapValues. rewrite map_map. simpl. rewrite map_id.
  now apply sortBy_sorted_id.
Qed.

(** X8.  The number of branches on display is the number of different
    conversations among the nodes handed over. *)
Theorem buildBranchDisplayNodes_count (groupNodesList : list (list ForkNode)) :
  length (buildBranchDisplayNodes groupNodesList)
  = size (list_to_set (map conversationId (concat groupNodesList)) : gset jstring).
Proof.
  destruct (display_facts groupNodesList) as [Hnd Helem].
  set (shown := buildBranchDisplayNodes groupNodesList) in *.
  rewrite <- (length_map conversationId shown).
  rewrite <- (size_list_to_set (C := gset jstring) _ Hnd).
  f_equal. apply set_eq. intros c. rewrite !elem_of_list_to_set. apply Helem.
Qed.

(** ** markdown.ts: further properties *)

Section TranscriptFacts.

Lemma join_includes sep (lines : list jstring) l :
  l ∈ lines -> includes (join sep lines) l.
Proof.
  induction lines as [|x lines IH]; intros Hin.
  - now apply elem_of_nil in Hin.
  - destruct lines as [|y lines].
    + apply list_elem_of_singleton in Hin as ->. exists [], []. simpl.
      now rewrite app_nil_r.
    + change (join sep (x :: y :: lines)) with (x ++ sep ++ join sep (y :: lines)).
      apply elem_of_cons in Hin as [-> | Hin].
      * now exists [], (sep ++ join sep (y :: lines)).
      * destruct (IH Hin) as (pre & post & ->).
        exists (x ++ sep ++ pre), post. now rewrite <- !app_assoc.
Qed.

Lemma render_includes_line title ts t line :
  t ∈ ts -> line ∈ turnLines t -> includes (render title ts) line.
Proof.
  intros Ht Hline. apply join_includes.
  apply elem_of_app. right. apply list_elem_of_In, in_concat.
  exists (turnLines t). split; [| now apply list_elem_of_In].
  apply in_map, list_elem_of_In, Ht.
Qed.

Lemma orElse_empty (s : jstring) : orElse s [] = s.
Proof. now destruct s. Qed.

Lemma user_in_turnLines t : user t ∈ turnLines t.
Proof.
  unfold turnLines. rewrite orElse_empty.
  apply elem_of_app. left. do 2 (apply elem_of_cons; right).
  apply elem_of_cons. now left.
Qed.

Lemma assistant_in_turnLines t a :
  assistant t = Some a -> trim a <> [] -> a ∈ turnLines t.
Proof.
  intros Ha Hne. unfold turnLines, hasAssistant. rewrite Ha.
  destruct (trim a); [congruence |].
  apply elem_of_app. right. simpl. do 2 (apply elem_of_cons; right).
  apply elem_of_cons. now left.
Qed.

Lemma trimStart_keeps s c :
  c ∈ s -> isTrimmable c = false -> trimStart s <> [].
Proof.
  induction s as [|d s IH]; intros Hin Hc.
  - now apply elem_of_nil in Hin.
  - simpl. destruct (isTrimmable d) eqn:Hd; [| discriminate].
    apply elem_of_cons in Hin as [-> | Hin]; [congruence | auto].
Qed.

Lemma trim_keeps s c : c ∈ s -> isTrimmable c = false -> trim s <> [].
Proof.
  intros Hin Hc Hnil. unfold trim, trimEnd in Hnil.
  destruct (trimStart_split s) as (pre & Hs & Hpre).
  assert (Hin' : c ∈ trimStart s).
  { rewrite Hs in Hin. apply elem_of_app in Hin as [Hin | Hin]; [| assumption].
    apply list_elem_of_In in Hin.
    rewrite forallb_forall in Hpre. apply Hpre in Hin. congruence. }
  apply (f_equal (@rev N)) in Hnil. rewrite rev_involutive in Hnil. simpl in Hnil.
  apply (trimStart_keeps (rev (trimStart s)) c); [| assumption | assumption].
  apply list_elem_of_In. apply -> in_rev. now apply list_elem_of_In.
Qed.

Lemma render_not_blank title ts : trim (render title ts) <> [].
Proof.
  apply (trim_keeps _ 35%N); [| reflexivity].
  unfold render. simpl.
  destruct (concat (map turnLines ts)); simpl; apply elem_of_cons; now left.
Qed.

End TranscriptFacts.

(** X9.  For a list of turns that is not empty, the transcript begins
    with the title line (["Untitled"] for the empty title), holds the
    user text of every turn, and holds the assistant text of every turn
    that has one that is not blank; with [dropLastAssistant] that of the
    last turn is the one exception. *)
Theorem buildForkMarkdown_keeps_content title turns drop :
  turns <> [] ->
  let out := buildForkMarkdown title turns drop in
  (exists rest, out = str_hash_space ++ orElse title str_Untitled ++ rest)
  /\ (forall t, t ∈ turns -> includes out (user t))
  /\ (forall i t answer,
        turns !! i = Some t -> assistant t = Some answer -> trim answer <> [] ->
        (drop = true -> S i <> length turns) ->
        includes out answer).
Proof.
  intros Hne out. subst out. rewrite buildForkMarkdown_nonempty by assumption.
  set (normalized := if drop then _ else _).
  split; [| split].
  - exists (str_newline ++ join str_newline ([] :: concat (map turnLines normalized))).
    unfold render. cbn [app join]. now rewrite <- app_assoc.
  - intros t Ht. apply list_elem_of_lookup in Ht as [j Hj].
    assert (Hex : exists t', normalized !! j = Some t' /\ user t' = user t).
    { subst normalized. destruct drop; [| now exists t].
      destruct (decide (length turns - 1 = j)%nat) as [Heq | Hneq].
      - exists (clearAssistant t). split; [| reflexivity].
        subst j. now rewrite list_lookup_alter_eq, Hj.
      - exists t. split; [| reflexivity]. now rewrite list_lookup_alter_ne. }
    destruct Hex as (t' & Hj' & <-).
    apply (render_includes_line _ _ t'); [| apply user_in_turnLines].
    apply list_elem_of_lookup. now exists j.
  - intros i t answer Hi Ha Hblank Hlast.
    assert (Hi' : normalized !! i = Some t).
    { subst normalized. destruct drop; [| assumption].
      rewrite list_lookup_alter_ne; [assumption |].
      specialize (Hlast eq_refl). apply lookup_lt_Some in Hi. lia. }
    apply (render_includes_line _ _ t); [| now apply assistant_in_turnLines].
    apply list_elem_of_lookup. now exists i.
Qed.

Lemma buildForkMarkdown_keeps_content_witness :
  includes
    (buildForkMarkdown (js "Fork Test")
       [mkTurn (js "u1") (Some (js "a1")); mkTurn (js "u2") (Some (js "a2"))] true)
    (js "a1").
Proof.
  refine (proj2 (proj2 (buildForkMarkdown_keeps_content (js "Fork Test")
            [mkTurn (js "u1") (Some (js "a1")); mkTurn (js "u2") (Some (js "a2"))]
            true _)) 0%nat (mkTurn (js "u1") (Some (js "a1"))) (js "a1") _ _ _ _);
    try reflexivity; try discriminate.
Defined.

(** X10.  The transcript is blank (empty once trimmed) exactly for the
    empty list of turns. *)
Theorem buildForkMarkdown_blank_iff title turns drop :
  trim (buildForkMarkdown title turns drop) = [] <-> turns = [].
Proof.
  split.
  - intros Hblank. destruct turns as [|t turns]; [reflexivity |].
    rewrite buildForkMarkdown_nonempty in Hblank by discriminate.
    now apply render_not_blank in Hblank.
  - now intros ->.
Qed.

(** ** The fork controller: the transcript up to a turn *)

Section UpToTurn.

Lemma turnsUpTo_take pending : forall targetIndex i,
  turnsUpTo targetIndex i pending
  = map turnOfPair (take (Z.to_nat (targetIndex - i + 1)) pending).
Proof.
  induction pending as [|entry pending IH]; intros targetIndex i; simpl.
  - now rewrite take_nil.
  - destruct (i <=? targetIndex) eqn:Hle.
    + apply Z.leb_le in Hle. rewrite IH.
      replace (Z.to_nat (targetIndex - i + 1))
        with (S (Z.to_nat (targetIndex - (i + 1) + 1))) by lia.
      simpl. unfold turnOfPair at 2. now rewrite !orElse_empty.
    + apply Z.leb_gt in Hle.
      now replace (Z.to_nat (targetIndex - i + 1)) with 0%nat by lia.
Qed.

Lemma findIndexFrom_none {A} (p : A -> bool) (l : list A) : forall i,
  (forall x, x ∈ l -> p x = false) -> findIndexFrom p i l = -1.
Proof.
  induction l as [|x l IH]; intros i H; simpl; [reflexivity |].
  rewrite (H x) by (apply elem_of_cons; now left).
  apply IH. intros y Hy. apply H, elem_of_cons. now right.
Qed.

Lemma findIndexFrom_first {A} (p : A -> bool) (l : list A) : forall i k x,
  l !! k = Some x -> p x = true ->
  (forall j y, (j < k)%nat -> l !! j = Some y -> p y = false) ->
  findIndexFrom p i l = i + Z.of_nat k.
Proof.
  induction l as [|z l IH]; intros i k x Hk Hp Hbefore; [discriminate |].
  simpl. destruct k as [|k].
  - injection Hk as ->. rewrite Hp. lia.
  - rewrite (Hbefore 0%nat z) by (reflexivity || lia).
    rewrite (IH (i + 1) k x); [lia | exact Hk | exact Hp |].
    intros j y Hj Hy. apply (Hbefore (S j) y); [lia | exact Hy].
Qed.

End UpToTurn.

(** X11.  When a chat pair belongs to the source turn, the transcript is
    that of the pairs up to the first such pair, without its answer,
    whatever [userTurnIndex] is. *)
Theorem extractConversationUpToTurn_source
    pairs title userTurnIndex sourceTurnId k entry :
  pairs !! k = Some entry ->
  pairOfTurn sourceTurnId entry ->
  (forall j other, (j < k)%nat -> pairs !! j = Some other ->
                   ~ pairOfTurn sourceTurnId other) ->
  extractConversationUpToTurn pairs title userTurnIndex sourceTurnId
  = buildForkMarkdown title (map turnOfPair (take (S k) pairs)) true.
Proof.
  intros Hk Hentry Hbefore. unfold extractConversationUpToTurn.
  destruct pairs as [|p0 pairs']; [discriminate |].
  set (pairs := p0 :: pairs') in *. cbn [length Nat.eqb].
  rewrite (findIndexFrom_first _ pairs 0 k entry Hk).
  - replace (0 <=? 0 + Z.of_nat k) with true by (symmetry; apply Z.leb_le; lia).
    rewrite turnsUpTo_take. do 3 f_equal. lia.
  - now apply bool_decide_eq_true_2.
  - intros j y Hj Hy. apply bool_decide_eq_false_2. now apply (Hbefore j).
Qed.

Lemma extractConversationUpToTurn_source_witness :
  let pairs := [ChatPairs.mkForkChatPair (js "u-0") (js "q0") (js "r0") 0;
                ChatPairs.mkForkChatPair (js "u-1-ab12") (js "q1") (js "r1") 1;
                ChatPairs.mkForkChatPair (js "u-2") (js "q2") (js "r2") 2] in
  extractConversationUpToTurn pairs (js "T") 7 (js "u-1")
  = buildForkMarkdown (js "T")
      [mkTurn (js "q0") (Some (js "r0")); mkTurn (js "q1") (Some (js "r1"))] true.
Proof.
  intros pairs.
  apply (extractConversationUpToTurn_source pairs (js "T") 7 (js "u-1") 1%nat
           (ChatPairs.mkForkChatPair (js "u-1-ab12") (js "q1") (js "r1") 1)).
  - reflexivity.
  - reflexivity.
  - intros j other Hj Hother. destruct j as [|j]; [| lia].
    injection Hother as <-. discriminate.
Defined.

(** X12.  When no chat pair belongs to the source turn, the transcript is
    that of the pairs at the positions up to [userTurnIndex]: of all pairs
    when the index is beyond the last, and the empty string when it is
    negative. *)
Theorem extractConversationUpToTurn_fallback
    pairs title userTurnIndex sourceTurnId :
  (forall other, other ∈ pairs -> ~ pairOfTurn sourceTurnId other) ->
  extractConversationUpToTurn pairs title userTurnIndex sourceTurnId
  = buildForkMarkdown title
      (map turnOfPair (take (Z.to_nat (userTurnIndex + 1)) pairs)) true
  /\ (userTurnIndex < 0 ->
      extractConversationUpToTurn pairs title userTurnIndex sourceTurnId = []).
Proof.
  intros Hnone.
  assert (Heq : extractConversationUpToTurn pairs title userTurnIndex sourceTurnId
                = buildForkMarkdown title
                    (map turnOfPair (take (Z.to_nat (userTurnIndex + 1)) pairs)) true).
  { unfold extractConversationUpToTurn.
    destruct pairs as [|p0 pairs']; [now rewrite take_nil |].
    set (pairs := p0 :: pairs') in *. cbn [length Nat.eqb].
    rewrite findIndexFrom_none.
    - cbn [Z.leb Z.compare]. rewrite turnsUpTo_take. do 3 f_equal. lia.
    - intros y Hy. apply bool_decide_eq_false_2. now apply Hnone. }
  split; [exact Heq |].
  intros Hneg. rewrite Heq.
  now replace (Z.to_nat (userTurnIndex + 1)) with 0%nat by lia.
Qed.

Lemma extractConversationUpToTurn_fallback_witness :
  extractConversationUpToTurn
    [ChatPairs.mkForkChatPair (js "u-0") (js "q0") (js "r0") 0] (js "T") (-1)
    (js "u-5")
  = [].
Proof.
  apply (extractConversationUpToTurn_fallback
           [ChatPairs.mkForkChatPair (js "u-0") (js "q0") (js "r0") 0]
           (js "T") (-1) (js "u-5")).
  - intros other Hin. apply list_elem_of_singleton in Hin as ->. discriminate.
  - lia.
Defined.

(** ** chatPairs.ts *)

Section NormalizeText.

Import ChatPairs.

Lemma trim_split s :
  exists pre post,
    s = pre ++ trim s ++ post
    /\ Forall (fun c => isTrimmable c = true) pre
    /\ Forall (fun c => isTrimmable c = true) post.
Proof.
  destruct (trimStart_split s) as (pre & Hs & Hpre).
  destruct (trimStart_split (rev (trimStart s))) as (q & Hr & Hq).
  exists pre, (rev q). split; [| split].
  - rewrite Hs at 1. f_equal. unfold trim, trimEnd.
    rewrite <- (rev_involutive (trimStart s)) at 1.
    rewrite Hr at 1. now rewrite rev_app_distr.
  - apply Forall_forall. intros c Hc.
    rewrite forallb_forall in Hpre. now apply Hpre, list_elem_of_In.
  - apply Forall_forall. intros c Hc.
    rewrite forallb_forall in Hq. apply Hq, in_rev. now apply list_elem_of_In.
Qed.

Lemma inkOf_whitespace s :
  Forall (fun c => isTrimmable c = true) s -> inkOf s = [].
Proof.
  unfold inkOf. induction 1 as [|c s Hc _ IH]; simpl; [reflexivity |].
  now rewrite Hc.
Qed.

Lemma inkOf_trim s : inkOf (trim s) = inkOf s.
Proof.
  destruct (trim_split s) as (pre & post & Hs & Hpre & Hpost).
  rewrite Hs at 2. unfold inkOf. rewrite !List.filter_app.
  fold (inkOf pre). fold (inkOf post).
  now rewrite (inkOf_whitespace pre), (inkOf_whitespace post), app_nil_r.
Qed.

Lemma inkOf_replace t : forall inRun, inkOf (replaceWhitespaceRuns inRun t) = inkOf t.
Proof.
  unfold inkOf. induction t as [|c t IH]; intros inRun; simpl; [reflexivity |].
  destruct (isTrimmable c) eqn:Hc; simpl.
  - destruct inRun; simpl; apply IH.
  - rewrite Hc. simpl. now rewrite IH.
Qed.

Lemma replace_spaces t : forall inRun c,
  c ∈ replaceWhitespaceRuns inRun t -> isTrimmable c = true -> c = 32%N.
Proof.
  induction t as [|d t IH]; intros inRun c Hin Hc; simpl in Hin.
  - now apply elem_of_nil in Hin.
  - destruct (isTrimmable d) eqn:Hd.
    + destruct inRun; [now apply (IH true) |].
      apply elem_of_cons in Hin as [-> | Hin]; [reflexivity | now apply (IH true)].
    + apply elem_of_cons in Hin as [-> | Hin]; [congruence | now apply (IH false)].
Qed.

Lemma replace_head_inRun t c :
  head (replaceWhitespaceRuns true t) = Some c -> isTrimmable c = false.
Proof.
  induction t as [|d t IH]; simpl; [discriminate |].
  destruct (isTrimmable d) eqn:Hd; [exact IH |].
  simpl. now intros [= <-].
Qed.

Lemma replace_noWhitespacePair t : forall inRun,
  noWhitespacePair (replaceWhitespaceRuns inRun t).
Proof.
  induction t as [|d t IH]; intros inRun; simpl; [exact I |].
  destruct (isTrimmable d) eqn:Hd.
  - destruct inRun; [apply IH |]. simpl. split; [| apply IH].
    intros _ e He. now apply (replace_head_inRun t).
  - simpl. split; [congruence | apply IH].
Qed.

Lemma noWhitespacePair_app_r pre s :
  noWhitespacePair (pre ++ s) -> noWhitespacePair s.
Proof. induction pre as [|c pre IH]; simpl; [auto | intros [_ H]; auto]. Qed.

Lemma noWhitespacePair_app_l s post :
  noWhitespacePair (s ++ post) -> noWhitespacePair s.
Proof.
  induction s as [|c s IH]; simpl; [auto |]. intros [Hc Hrest].
  split; [| auto]. intros Hws d Hd. apply Hc; [assumption |].
  destruct s; [discriminate | exact Hd].
Qed.

Lemma noWhitespacePair_includes s c d :
  noWhitespacePair s -> isTrimmable c = true -> isTrimmable d = true ->
  ~ includes s [c; d].
Proof.
  intros Hs Hc Hd (pre & post & ->).
  apply noWhitespacePair_app_r in Hs. simpl in Hs.
  destruct Hs as [H _]. specialize (H Hc d eq_refl). congruence.
Qed.

Lemma replace_fixed s : forall inRun,
  (forall c, c ∈ s -> isTrimmable c = true -> c = 32%N) ->
  noWhitespacePair s ->
  (inRun = true -> forall c, head s = Some c -> isTrimmable c = false) ->
  replaceWhitespaceRuns inRun s = s.
Proof.
  induction s as [|c s IH]; intros inRun Hsp Hpair Hhead; simpl; [reflexivity |].
  destruct Hpair as [Hc Hpair].
  assert (Hsp' : forall e, e ∈ s -> isTrimmable e = true -> e = 32%N).
  { intros e He. apply Hsp, elem_of_cons. now right. }
  destruct (isTrimmable c) eqn:Hws.
  - destruct inRun; [specialize (Hhead eq_refl c eq_refl); congruence |].
    assert (c = 32%N) as -> by (apply Hsp; [apply elem_of_cons; now left | assumption]).
    f_equal. apply IH; auto.
  - f_equal. apply IH; auto.
Qed.

End NormalizeText.

(** X13.  [normalizeText] returns a text without white space at its ends,
    in which the only white space is the single space between two words;
    the code units that are not white space are those of the input, in
    their order; a normalised text is its own normal form.  The absent
    text ([null]) counts as the empty one. *)
Theorem normalizeText_normal_form (text : option jstring) :
  let out := ChatPairs.normalizeText text in
  isTrimmed out
  /\ (forall c, c ∈ out -> isTrimmable c = true -> c = 32%N)
  /\ (forall c d, isTrimmable c = true -> isTrimmable d = true ->
                  ~ includes out [c; d])
  /\ inkOf out = inkOf (default [] text)
  /\ ChatPairs.normalizeText (Some out) = out.
Proof.
  intros out.
  assert (Hout : out = trim (ChatPairs.replaceWhitespaceRuns false (default [] text))).
  { subst out. now destruct text as [[|c t]|]. }
  set (r := ChatPairs.replaceWhitespaceRuns false (default [] text)) in *.
  destruct (trim_split r) as (pre & post & Hr & _ & _).
  assert (Hsp : forall c, c ∈ out -> isTrimmable c = true -> c = 32%N).
  { intros c Hc. apply (replace_spaces (default [] text) false c). fold r.
    rewrite Hr, <- Hout, !elem_of_app. auto. }
  assert (Hpair : noWhitespacePair out).
  { pose proof (replace_noWhitespacePair (default [] text) false) as H. fold r in H.
    rewrite Hr, <- Hout in H.
    now apply noWhitespacePair_app_r, noWhitespacePair_app_l in H. }
  assert (Htrim : isTrimmed out) by (rewrite Hout; apply trim_isTrimmed).
  split; [exact Htrim |]. split; [exact Hsp |]. split; [| split].
  - intros c d. now apply noWhitespacePair_includes.
  - rewrite Hout, inkOf_trim. apply inkOf_replace.
  - destruct out as [|c0 out'] eqn:Ho; [reflexivity |].
    unfold ChatPairs.normalizeText.
    rewrite replace_fixed; [now apply trim_id | assumption | assumption | discriminate].
Qed.

Section Dedupe.

Import ChatPairs.

Lemma dedupeInvariant_start first : dedupeInvariant first (∅, []) [].
Proof.
  split; simpl; try constructor; try reflexivity.
  - intros H. now apply elem_of_empty in H.
  - intros H. now apply elem_of_nil in H.
  - intros el H. now apply elem_of_nil in H.
Qed.

Lemma dedupeInvariant_step first state seen el :
  dedupeInvariant first state seen ->
  dedupeInvariant first (dedupeStep first state el) (seen ++ [el]).
Proof.
  intros [Hk Hnd Hsub Hall Hhead]. unfold dedupeStep.
  case_bool_decide as Hkey.
  - split; try assumption.
    + now apply sublist_inserts_r.
    + intros e [He | ->%list_elem_of_singleton]%elem_of_app; auto.
    + rewrite Hhead. destruct seen as [|s0 seen]; [| reflexivity].
      apply sublist_nil_r in Hsub. rewrite Hsub in Hk. simpl in Hk.
      apply Hk in Hkey. now apply elem_of_nil in Hkey.
  - split; simpl.
    + intros key. rewrite map_app, elem_of_union, elem_of_app, elem_of_singleton.
      simpl. rewrite list_elem_of_singleton, Hk. tauto.
    + rewrite map_app. apply NoDup_app. split; [assumption |].
      split; [| apply NoDup_singleton].
      intros key Hin ->%list_elem_of_singleton. now apply Hkey, Hk.
    + now apply sublist_app.
    + intros e [He | ->%list_elem_of_singleton]%elem_of_app.
      * apply elem_of_union. left. now apply Hall.
      * apply elem_of_union. right. now apply elem_of_singleton.
    + destruct seen as [|s0 seen].
      * apply sublist_nil_r in Hsub. now rewrite Hsub.
      * destruct state.2; [discriminate | exact Hhead].
Qed.

Lemma dedupeInvariant_loop first pending : forall state seen,
  dedupeInvariant first state seen ->
  dedupeInvariant first (foldl (dedupeStep first) state pending) (seen ++ pending).
Proof.
  induction pending as [|el pending IH]; intros state seen Hinv; simpl.
  - now rewrite app_nil_r.
  - replace (seen ++ el :: pending) with ((seen ++ [el]) ++ pending)
      by now rewrite <- app_assoc.
    apply IH, dedupeInvariant_step, Hinv.
Qed.

End Dedupe.

(** X14.  [dedupeByTextAndOffset] keeps the elements in their order and
    drops only elements whose key (normalised text and offset from the
    first turn) an earlier element has: the result is a sublist of the
    input with pairwise different keys, every key of the input is the key
    of a kept element, and the first element of the input stays first. *)
Theorem dedupeByTextAndOffset_keeps_first_of_key
    (elements : list ChatPairs.HTMLElement) (firstTurnOffset : Z) :
  let kept := ChatPairs.dedupeByTextAndOffset elements firstTurnOffset in
  sublist kept elements
  /\ NoDup (map (ChatPairs.dedupeKey firstTurnOffset) kept)
  /\ (forall el, el ∈ elements ->
        ChatPairs.dedupeKey firstTurnOffset el
        ∈ map (ChatPairs.dedupeKey firstTurnOffset) kept)
  /\ head kept = head elements.
Proof.
  intros kept. subst kept. unfold ChatPairs.dedupeByTextAndOffset.
  destruct (dedupeInvariant_loop firstTurnOffset elements (∅, []) []
              (dedupeInvariant_start firstTurnOffset))
    as [Hk Hnd Hsub Hall Hhead].
  simpl in Hsub, Hall, Hhead.
  repeat split; try assumption.
  intros el Hel. now apply Hk, Hall.
Qed.

Section TopLevel.

Import ChatPairs.

Context {E : Type} (contains : E -> E -> bool).

Lemma containedByOther_spec el i others : forall j,
  containedByOther contains el i j others = true
  <-> exists k other,
        others !! k = Some other /\ (j + k)%nat <> i /\ contains other el = true.
Proof.
  induction others as [|o others IH]; intros j; simpl.
  - split; [discriminate | intros (k & other & H & _); discriminate].
  - destruct (i =? j)%nat eqn:Hij.
    + apply Nat.eqb_eq in Hij. rewrite IH. split.
      * intros (k & other & Hk & Hne & Hc). exists (S k), other.
        repeat split; [assumption | lia | assumption].
      * intros (k & other & Hk & Hne & Hc). destruct k as [|k]; [lia |].
        exists k, other. repeat split; [assumption | lia | assumption].
    + apply Nat.eqb_neq in Hij. destruct (contains o el) eqn:Hc.
      * split; [intros _ | reflexivity]. exists 0%nat, o.
        repeat split; [lia | assumption].
      * rewrite IH. split.
        -- intros (k & other & Hk & Hne & Hc'). exists (S k), other.
           repeat split; [assumption | lia | assumption].
        -- intros (k & other & Hk & Hne & Hc'). destruct k as [|k].
           ++ injection Hk as <-. congruence.
           ++ exists k, other. repeat split; [assumption | lia | assumption].
Qed.

Lemma filterTopLevelFrom_spec arr pending : forall i el,
  el ∈ filterTopLevelFrom contains arr i pending
  <-> exists k, pending !! k = Some el
                /\ containedByOther contains el (i + k) 0 arr = false.
Proof.
  induction pending as [|p pending IH]; intros i el; simpl.
  - split; [intros H; now apply elem_of_nil in H | intros (k & H & _); discriminate].
  - assert (Hrest : el ∈ filterTopLevelFrom contains arr (S i) pending
                    <-> exists k, (p :: pending) !! S k = Some el
                          /\ containedByOther contains el (i + S k) 0 arr = false).
    { rewrite IH. split; intros (k & Hk & Hc); exists k;
        (split; [exact Hk |]);
        now replace (i + S k)%nat with (S i + k)%nat in * by lia. }
    destruct (containedByOther contains p i 0 arr) eqn:Hp.
    + rewrite Hrest. split.
      * intros (k & Hk & Hc). now exists (S k).
      * intros (k & Hk & Hc). destruct k as [|k]; [| now exists k].
        injection Hk as <-. rewrite Nat.add_0_r in Hc. congruence.
    + rewrite elem_of_cons, Hrest. split.
      * intros [-> | (k & Hk & Hc)]; [| now exists (S k)].
        exists 0%nat. now rewrite Nat.add_0_r.
      * intros (k & Hk & Hc). destruct k as [|k]; [| right; now exists k].
        left. now injection Hk.
Qed.

Lemma filterTopLevelFrom_sublist arr pending : forall i,
  sublist (filterTopLevelFrom contains arr i pending) pending.
Proof.
  induction pending as [|p pending IH]; intros i; simpl; [constructor |].
  destruct (containedByOther contains p i 0 arr); [apply sublist_cons | apply sublist_skip];
    apply IH.
Qed.

(** A list without repetition, ordered by a transitive and antisymmetric
    relation, has an element that no other element is above. *)
Lemma top_element (arr : list E) :
  arr <> [] -> NoDup arr ->
  (forall a b, contains a b = true -> contains b a = true -> a = b) ->
  (forall a b c, contains a b = true -> contains b c = true -> contains a c = true) ->
  exists top, top ∈ arr
              /\ forall other, other ∈ arr -> other <> top -> contains other top = false.
Proof.
  intros Hne Hnd Hanti Htrans. induction arr as [|x arr IH]; [congruence |].
  apply NoDup_cons in Hnd as [Hx Hnd].
  destruct arr as [|y arr'].
  - exists x. split; [apply elem_of_cons; now left |].
    intros other [-> | H]%elem_of_cons; [congruence | now apply elem_of_nil in H].
  - destruct (IH ltac:(discriminate) Hnd) as (top & Htop & Hmax).
    destruct (contains x top) eqn:Hxt.
    + exists x. split; [apply elem_of_cons; now left |].
      intros other [-> | Hin]%elem_of_cons Hox; [congruence |].
      destruct (contains other x) eqn:Hc; [exfalso | reflexivity].
      pose proof (Htrans _ _ _ Hc Hxt) as Hot.
      rewrite Hmax in Hot; [discriminate | assumption |].
      intros ->. apply Hx. now rewrite (Hanti _ _ Hxt Hc).
    + exists top. split; [apply elem_of_cons; now right |].
      intros other [-> | Hin]%elem_of_cons Hot; [assumption | now apply Hmax].
Qed.

End TopLevel.

(** X15.  [filterTopLevel] keeps, in their order, the elements that no
    element at another position of the list contains.  So an element that
    stands in the list twice is dropped at both places when, as in the
    DOM, an element contains itself. *)
Theorem filterTopLevel_kept {E} (contains : E -> E -> bool) (elements : list E) :
  let kept := ChatPairs.filterTopLevel contains elements in
  sublist kept elements
  /\ (forall el, el ∈ kept
        <-> exists i, elements !! i = Some el
              /\ forall j other, elements !! j = Some other -> j <> i ->
                                 contains other el = false)
  /\ (forall el i j, elements !! i = Some el -> elements !! j = Some el ->
                     i <> j -> contains el el = true -> el ∉ kept).
Proof.
  intros kept.
  assert (Hspec : forall el, el ∈ kept
            <-> exists i, elements !! i = Some el
                  /\ forall j other, elements !! j = Some other -> j <> i ->
                                     contains other el = false).
  { intros el. subst kept. unfold ChatPairs.filterTopLevel.
    rewrite filterTopLevelFrom_spec. split.
    - intros (k & Hk & Hc). exists k. split; [assumption |].
      intros j other Hj Hne. destruct (contains other el) eqn:Hco; [| reflexivity].
      assert (Ht : ChatPairs.containedByOther contains el (0 + k) 0 elements = true).
      { apply containedByOther_spec. now exists j, other. }
      congruence.
    - intros (i & Hi & Hnone). exists i. split; [assumption |].
      destruct (ChatPairs.containedByOther contains el (0 + i) 0 elements) eqn:Hc;
        [| reflexivity].
      apply containedByOther_spec in Hc as (j & other & Hj & Hne & Hco).
      rewrite (Hnone j other Hj) in Hco; [discriminate | exact Hne]. }
  split; [apply filterTopLevelFrom_sublist |]. split; [exact Hspec |].
  intros el i j Hi Hj Hne Hrefl Hin.
  apply Hspec in Hin as (k & Hk & Hnone).
  destruct (decide (i = k)) as [-> | Hik].
  - rewrite (Hnone j el Hj) in Hrefl; [discriminate | congruence].
  - now rewrite (Hnone i el Hi) in Hrefl.
Qed.

(** X16.  When the elements are different from one another and
    [contains] orders them (transitive, and antisymmetric) as the
    ancestors order the elements of a document, [filterTopLevel] of a list
    that is not empty is not empty. *)
Theorem filterTopLevel_not_empty {E} (contains : E -> E -> bool) (elements : list E) :
  elements <> [] -> NoDup elements ->
  (forall a b, contains a b = true -> contains b a = true -> a = b) ->
  (forall a b c, contains a b = true -> contains b c = true -> contains a c = true) ->
  ChatPairs.filterTopLevel contains elements <> [].
Proof.
  intros Hne Hnd Hanti Htrans.
  destruct (top_element contains elements Hne Hnd Hanti Htrans) as (top & Hin & Hmax).
  assert (Hkept : top ∈ ChatPairs.filterTopLevel contains elements).
  { unfold ChatPairs.filterTopLevel. apply filterTopLevelFrom_spec.
    apply list_elem_of_lookup in Hin as [i Hi]. exists i. split; [assumption |].
    destruct (ChatPairs.containedByOther contains top (0 + i) 0 elements) eqn:Hc;
      [| reflexivity].
    apply containedByOther_spec in Hc as (j & other & Hj & Hne' & Hco).
    rewrite Hmax in Hco; [discriminate | |].
    - apply list_elem_of_lookup. now exists j.
    - intros ->. apply Hne'. simpl. apply (NoDup_lookup elements j i top); assumption. }
  intros Hnil. rewrite Hnil in Hkept. now apply elem_of_nil in Hkept.
Qed.

Lemma filterTopLevel_not_empty_witness :
  ChatPairs.filterTopLevel (fun a b : nat => (a =? 11)%nat && (b =? 12)%nat)
    [11; 12; 25]%nat <> [].
Proof.
  apply filterTopLevel_not_empty.
  - discriminate.
  - apply NoDup_ListNoDup. repeat constructor; simpl; lia.
  - intros a b [H1 H2]%andb_true_iff [H3 H4]%andb_true_iff.
    apply Nat.eqb_eq in H1, H2, H3, H4. lia.
  - intros a b c [H1 H2]%andb_true_iff [H3 H4]%andb_true_iff.
    apply Nat.eqb_eq in H1, H2, H3, H4. lia.
Defined.

Section AssistantHost.

Import ChatPairs.

Lemma hostInvariant_step start end_ state seen candidate :
  hostInvariant start end_ state seen ->
  hostInvariant start end_ (hostStep start end_ state candidate) (seen ++ [candidate]).
Proof.
  destruct state as [bestOff host]. unfold hostInvariant, hostStep. simpl.
  intros Hinv.
  destruct ((start <=? offsetTop candidate)
            && belowBound (offsetTop candidate) end_
            && belowBound (offsetTop candidate) bestOff) eqn:Hcond; simpl.
  - apply andb_true_iff in Hcond as [[Hs He]%andb_true_iff Hb].
    apply Z.leb_le in Hs.
    split; [reflexivity |].
    split; [apply elem_of_app; right; now apply list_elem_of_singleton |].
    split; [now split |].
    intros el [Hel | ->%list_elem_of_singleton]%elem_of_app Hwin; [| lia].
    destruct host as [h|].
    + destruct Hinv as (-> & _ & _ & Hmin). simpl in Hb. apply Z.ltb_lt in Hb.
      specialize (Hmin el Hel Hwin). lia.
    + destruct Hinv as [_ Hnone]. now apply Hnone in Hwin.
  - assert (Hrej : inWindow start end_ candidate ->
                   belowBound (offsetTop candidate) bestOff = false).
    { intros [Hs He]. apply Z.leb_le in Hs. now rewrite Hs, He in Hcond. }
    destruct host as [h|].
    + destruct Hinv as (-> & Hin & Hwin & Hmin).
      split; [reflexivity |]. split; [apply elem_of_app; now left |].
      split; [assumption |].
      intros el [Hel | ->%list_elem_of_singleton]%elem_of_app Hw; [now apply Hmin |].
      apply Hrej in Hw. simpl in Hw. apply Z.ltb_ge in Hw. lia.
    + destruct Hinv as [-> Hnone]. split; [reflexivity |].
      intros el [Hel | ->%list_elem_of_singleton]%elem_of_app Hw; [now apply (Hnone el) |].
      apply Hrej in Hw. discriminate.
Qed.

Lemma hostInvariant_loop start end_ pending : forall state seen,
  hostInvariant start end_ state seen ->
  hostInvariant start end_ (foldl (hostStep start end_) state pending) (seen ++ pending).
Proof.
  induction pending as [|el pending IH]; intros state seen Hinv; simpl.
  - now rewrite app_nil_r.
  - replace (seen ++ el :: pending) with ((seen ++ [el]) ++ pending)
      by now rewrite <- app_assoc.
    apply IH, hostInvariant_step, Hinv.
Qed.

End AssistantHost.

(** X17.  For one user turn, the loop over the assistant elements picks
    an element whose offset lies in the window of the turn (from [start],
    below [end_]) and is the least such offset; it picks none exactly
    when no assistant element lies in the window. *)
Theorem assistantHostByOffset_least
    (assistants : list ChatPairs.HTMLElement) (start : Z) (end_ : option Z) :
  match ChatPairs.assistantHostByOffset assistants start end_ with
  | Some host =>
      host ∈ assistants /\ inWindow start end_ host
      /\ forall el, el ∈ assistants -> inWindow start end_ el ->
                    ChatPairs.offsetTop host <= ChatPairs.offsetTop el
  | None => forall el, el ∈ assistants -> ~ inWindow start end_ el
  end.
Proof.
  unfold ChatPairs.assistantHostByOffset.
  assert (Hstart : hostInvariant start end_ (None, None) []).
  { split; [reflexivity |]. intros el Hel. now apply elem_of_nil in Hel. }
  pose proof (hostInvariant_loop start end_ assistants _ _ Hstart) as Hinv.
  simpl in Hinv. unfold hostInvariant in Hinv.
  destruct (foldl _ _ assistants).2 as [host|]; [| apply Hinv].
  destruct Hinv as (_ & Hin & Hwin & Hmin).
  split; [exact Hin |]. split; [exact Hwin | exact Hmin].
Qed.

(** ** The fork controller: the conversation id of a path *)

Section PathnameFacts.

Lemma span_spec p s : forall taken tl,
  span p s = (taken, tl) ->
  s = taken ++ tl /\ Forall (fun c => p c = true) taken.
Proof.
  induction s as [|c s IH]; simpl; intros taken tl H.
  - injection H as <- <-. split; [reflexivity | constructor].
  - destruct (p c) eqn:Hc.
    + destruct (span p s) as [taken' tl'].
      injection H as <- <-.
      destruct (IH _ _ eq_refl) as (-> & Hall).
      split; [reflexivity | now constructor].
    + injection H as <- <-. split; [reflexivity | constructor].
Qed.

Lemma span_app p taken tl :
  Forall (fun c => p c = true) taken ->
  (forall c, head tl = Some c -> p c = false) ->
  span p (taken ++ tl) = (taken, tl).
Proof.
  intros Hall Htl. induction Hall as [|c taken Hc _ IH]; simpl.
  - destruct tl as [|c tl]; [reflexivity |]. simpl. now rewrite (Htl c eq_refl).
  - now rewrite Hc, IH.
Qed.

Lemma stripPrefix_spec prefix : forall s rest,
  stripPrefix prefix s = Some rest <-> s = prefix ++ rest.
Proof.
  induction prefix as [|p prefix IH]; intros s rest; simpl.
  - split; [now intros [= ->] | now intros ->].
  - destruct s as [|c s]; [split; discriminate |].
    destruct (p =? c)%N eqn:Hpc.
    + apply N.eqb_eq in Hpc as ->. rewrite IH. split; [now intros -> | now intros [= ->]].
    + apply N.eqb_neq in Hpc. split; [discriminate | intros [= -> _]; congruence].
Qed.

Lemma captureId_spec s id :
  captureId s = Some id ->
  id <> [] /\ Forall (fun c => isIdUnit c = true) id /\ exists rest, s = id ++ rest.
Proof.
  unfold captureId. destruct (span isIdUnit s) as [taken tl] eqn:Hspan.
  apply span_spec in Hspan as (-> & Hall). simpl.
  destruct taken as [|c taken]; [discriminate |].
  intros [= <-]. split; [discriminate |]. split; [assumption | now exists tl].
Qed.

Lemma searchFirst_spec matchHere s capture :
  searchFirst matchHere s = Some capture ->
  exists pre t, s = pre ++ t /\ matchHere t = Some capture.
Proof.
  induction s as [|c s IH]; simpl.
  - destruct (matchHere []) eqn:Hm; [| discriminate].
    intros [= ->]. now exists [], [].
  - destruct (matchHere (c :: s)) eqn:Hm.
    + intros [= ->]. now exists [], (c :: s).
    + intros H. destruct (IH H) as (pre & t & -> & Ht). now exists (c :: pre), t.
Qed.

End PathnameFacts.

(** X18.  A conversation id read off a path is not empty, holds none of
    the code units [/], [?] and [#], and stands in the path right after
    ["/app/"], or after ["/gem/<name>/"] with a name that is not empty and
    has no slash. *)
Theorem extractConversationIdFromUrl_shape (pathname id : jstring) :
  extractConversationIdFromUrl pathname = Some id ->
  id <> []
  /\ Forall (fun c => c <> 47%N /\ c <> 63%N /\ c <> 35%N) id
  /\ (includes pathname (str_app ++ id)
      \/ exists name,
           name <> [] /\ Forall (fun c => c <> 47%N) name
           /\ includes pathname (str_gem ++ name ++ [47%N] ++ id)).
Proof.
  intros Hid.
  assert (Hshape : forall c, isIdUnit c = true -> c <> 47%N /\ c <> 63%N /\ c <> 35%N).
  { intros c Hc. unfold isIdUnit in Hc. apply negb_true_iff in Hc.
    repeat (apply orb_false_iff in Hc as [Hc ?]).
    repeat split; now apply N.eqb_neq. }
  unfold extractConversationIdFromUrl in Hid.
  destruct (searchFirst matchAppHere pathname) as [found|] eqn:Happ.
  - injection Hid as ->.
    apply searchFirst_spec in Happ as (pre & t & -> & Ht).
    unfold matchAppHere in Ht.
    destruct (stripPrefix str_app t) as [rest|] eqn:Hstrip; [| discriminate].
    apply stripPrefix_spec in Hstrip as ->.
    apply captureId_spec in Ht as (Hne & Hall & tl & ->).
    split; [assumption |]. split; [eapply Forall_impl; eauto |].
    left. exists pre, tl. now rewrite <- !app_assoc.
  - apply searchFirst_spec in Hid as (pre & t & -> & Ht).
    unfold matchGemHere in Ht.
    destruct (stripPrefix str_gem t) as [rest|] eqn:Hstrip; [| discriminate].
    apply stripPrefix_spec in Hstrip as ->.
    destruct (span isNotSlash rest) as [name tl] eqn:Hspan.
    apply span_spec in Hspan as (-> & Hname).
    destruct name as [|n0 name]; [discriminate |].
    destruct tl as [|slash tl]; [discriminate |].
    destruct (N.eq_dec slash 47%N) as [-> | Hns];
      [| destruct slash as [|p]; try discriminate;
         do 6 (destruct p; try discriminate); congruence].
    apply captureId_spec in Ht as (Hne & Hall & tl' & ->).
    split; [assumption |]. split; [eapply Forall_impl; eauto |].
    right. exists (n0 :: name). split; [discriminate |]. split.
    + eapply Forall_impl; [exact Hname |]. intros c Hc.
      unfold isNotSlash in Hc. apply negb_true_iff in Hc. now apply N.eqb_neq.
    + exists pre, tl'. now rewrite <- !app_assoc.
Qed.

Lemma extractConversationIdFromUrl_shape_witness :
  includes (js "/u/1/gem/coach/abc123") (str_app ++ js "abc123")
  \/ exists name,
       name <> [] /\ Forall (fun c => c <> 47%N) name
       /\ includes (js "/u/1/gem/coach/abc123") (str_gem ++ name ++ [47%N] ++ js "abc123").
Proof.
  apply (extractConversationIdFromUrl_shape (js "/u/1/gem/coach/abc123") (js "abc123")).
  reflexivity.
Defined.

(** X19.  The path ["/app/<id>"], with whatever follows the id after a
    [/], [?] or [#], gives back the id, when the id is not empty and
    holds none of these three code units. *)
Theorem extractConversationIdFromUrl_app (id rest : jstring) :
  id <> [] ->
  Forall (fun c => isIdUnit c = true) id ->
  (forall c, head rest = Some c -> isIdUnit c = false) ->
  extractConversationIdFromUrl (str_app ++ id ++ rest) = Some id.
Proof.
  intros Hne Hall Hrest. unfold extractConversationIdFromUrl.
  assert (Hhere : matchAppHere (str_app ++ id ++ rest) = Some id).
  { unfold matchAppHere.
    rewrite (proj2 (stripPrefix_spec str_app _ (id ++ rest)) eq_refl).
    unfold captureId. rewrite span_app by assumption. simpl.
    now destruct id. }
  assert (Hsearch : searchFirst matchAppHere (str_app ++ id ++ rest) = Some id).
  { change (str_app ++ id ++ rest) with (47%N :: js "app/" ++ id ++ rest) in *.
    cbn [searchFirst]. now rewrite Hhere. }
  now rewrite Hsearch.
Qed.

Lemma extractConversationIdFromUrl_app_witness :
  extractConversationIdFromUrl (js "/app/conv1?hl=en") = Some (js "conv1").
Proof.
  apply (extractConversationIdFromUrl_app (js "conv1") (js "?hl=en")).
  - discriminate.
  - repeat constructor.
  - intros c [= <-]. reflexivity.
Defined.

(** ** forkContext.ts *)

Section LanguageFacts.

Import ForkContext.

Lemma normalizeLanguage_value raw :
  normalizeLanguage raw = normalizeLanguage (Some (trim (default [] raw))).
Proof.
  destruct raw as [[|c r]|]; try reflexivity.
  simpl default. unfold normalizeLanguage.
  destruct (trim (c :: r)) as [|v0 value'] eqn:Hv; [reflexivity |].
  now rewrite <- Hv, trim_idempotent, Hv.
Qed.

Lemma startsWith_same (value a b : jstring) :
  startsWith value a = true -> startsWith value b = true ->
  length a = length b -> a = b.
Proof.
  intros [pa Ha]%startsWith_spec [pb Hb]%startsWith_spec Hlen.
  rewrite Ha in Hb. now apply app_inj_1 in Hb as [-> _].
Qed.

Lemma taiwan_first value :
  isTaiwan value -> exists c rest, value = c :: rest /\ (c = 122%N \/ c = 90%N).
Proof.
  intros [-> | Hlow]; [exists 122%N, (js "h_TW"); now split; [| left] |].
  destruct value as [|c rest]; [discriminate |]. exists c, rest.
  split; [reflexivity |]. simpl in Hlow. injection Hlow as Hc _.
  destruct ((65 <=? c) && (c <=? 90))%N eqn:Hup; [right | left]; lia.
Qed.

Lemma taiwan_not_other value (code : jstring) c0 c1 :
  isTaiwan value -> code = [c0; c1] -> c0 <> 122%N -> c0 <> 90%N ->
  startsWith value code = false.
Proof.
  intros (c & rest & -> & Hc)%taiwan_first -> H1 H2.
  simpl. replace (c0 =? c)%N with false; [reflexivity |].
  symmetry. apply N.eqb_neq. destruct Hc; congruence.
Qed.

Lemma isTaiwan_test value :
  bool_decide (value = str_zh_TW)
  || bool_decide (toLowerCaseAscii value = str_zh_tw) = true
  <-> isTaiwan value.
Proof.
  unfold isTaiwan. rewrite orb_true_iff, !bool_decide_eq_true. tauto.
Qed.

End LanguageFacts.

(** X20.  [normalizeLanguage] looks at the hint without the white space
    at its ends, an absent hint counting as the empty one.  The result is
    zh_TW exactly for the Taiwan variant, zh exactly for any other value
    that begins with zh, one of ar, es, fr, ja, ko, pt, ru exactly for a
    value that begins with these two letters, and en for everything
    else. *)
Theorem normalizeLanguage_classes (raw : option jstring) :
  let value := trim (default [] raw) in
  let language := ForkContext.normalizeLanguage raw in
  (language = ForkContext.zh_TW <-> isTaiwan value)
  /\ (language = ForkContext.zh
      <-> startsWith value (js "zh") = true /\ ~ isTaiwan value)
  /\ (forall other,
        other <> ForkContext.en -> other <> ForkContext.zh ->
        other <> ForkContext.zh_TW ->
        (language = other <-> startsWith value (languageCode other) = true))
  /\ ForkContext.normalizeLanguage (Some value) = language.
Proof.
  intros value language.
  assert (Hlang : language = ForkContext.normalizeLanguage (Some value))
    by apply normalizeLanguage_value.
  assert (Hchain : language
    = if bool_decide (value = ForkContext.str_zh_TW)
         || bool_decide (ForkContext.toLowerCaseAscii value = ForkContext.str_zh_tw)
      then ForkContext.zh_TW
      else if startsWith value (js "zh") then ForkContext.zh
      else if startsWith value (js "ar") then ForkContext.ar
      else if startsWith value (js "es") then ForkContext.es
      else if startsWith value (js "fr") then ForkContext.fr
      else if startsWith value (js "ja") then ForkContext.ja
      else if startsWith value (js "ko") then ForkContext.ko
      else if startsWith value (js "pt") then ForkContext.pt
      else if startsWith value (js "ru") then ForkContext.ru
      else ForkContext.en).
  { rewrite Hlang. unfold ForkContext.normalizeLanguage.
    destruct value as [|v0 value'] eqn:Hv; [reflexivity |].
    rewrite <- Hv. unfold value. now rewrite trim_idempotent. }
  clearbody value language.
  split; [| split; [| split; [| now symmetry]]].
  - rewrite <- isTaiwan_test, Hchain.
    destruct (_ || _); [tauto |].
    repeat (destruct (startsWith value _)); split; discriminate.
  - rewrite <- isTaiwan_test, Hchain.
    destruct (_ || _); [split; [discriminate | intros [_ H]; congruence] |].
    destruct (startsWith value (js "zh")) eqn:Hzh; [split; [split |]; congruence |].
    split; [| intros [H _]; discriminate].
    repeat (destruct (startsWith value _)); discriminate.
  - intros other Hen Hzh HTW. rewrite Hchain.
    destruct (_ || _) eqn:Htw.
    + apply isTaiwan_test in Htw.
      split; [congruence |]. intros Hc. exfalso.
      destruct other; try congruence; cbn [languageCode] in Hc;
        match type of Hc with
        | startsWith value ?code = true =>
            rewrite (taiwan_not_other value code _ _ Htw eq_refl) in Hc
              by discriminate
        end; discriminate Hc.
    + destruct other; try congruence; cbn [languageCode];
        repeat match goal with
               | |- context [if startsWith value ?code then _ else _] =>
                   let H := fresh "Hs" in destruct (startsWith value code) eqn:H
               end;
        (split;
         [ intros Heq; try discriminate Heq; try reflexivity; try assumption
         | intros Hc; try discriminate Hc; try reflexivity; exfalso;
           match goal with
           | H : startsWith value ?code = true |- _ =>
               let Hsame := fresh "Hsame" in
               pose proof (startsWith_same value code _ H Hc eq_refl) as Hsame;
               discriminate Hsame
           end ]).
Qed.

Lemma normalizeLanguage_classes_witness :
  ForkContext.normalizeLanguage (Some (js " fr-CA ")) = ForkContext.fr.
Proof.
  apply (proj1 (proj2 (proj2 (normalizeLanguage_classes (Some (js " fr-CA ")))))
           ForkContext.fr); try discriminate.
  reflexivity.
Defined.

Example normalizeLanguage_taiwan :
  ForkContext.normalizeLanguage (Some (js "ZH-tw")) = ForkContext.zh_TW
  /\ ForkContext.normalizeLanguage (Some (js "zh_tw")) = ForkContext.zh
  /\ ForkContext.normalizeLanguage (Some (js "  ")) = ForkContext.en
  /\ ForkContext.normalizeLanguage None = ForkContext.en.
Proof. repeat split. Qed.

(** X21.  The text handed to the new conversation is the instruction
    block of the language of the hint (each block is there, so the English
    one never has to stand in), the line of the history heading, the
    transcript without the white space at its ends, and a line break.
    Two transcripts give the same text exactly when they are equal once
    trimmed. *)
Theorem composeForkInputWithContext_shape (history : jstring)
    (rawLanguage : option jstring) :
  ForkContext.composeForkInputWithContext history rawLanguage
  = ForkContext.CONTEXT_PREFIX (ForkContext.normalizeLanguage rawLanguage)
    ++ ForkContext.str_history_heading ++ trim history ++ [10%N]
  /\ (exists rest,
        ForkContext.composeForkInputWithContext history rawLanguage
        = str_hash_space ++ rest)
  /\ ForkContext.composeForkInputWithContext (trim history) rawLanguage
     = ForkContext.composeForkInputWithContext history rawLanguage
  /\ (forall history',
        ForkContext.composeForkInputWithContext history rawLanguage
        = ForkContext.composeForkInputWithContext history' rawLanguage
        <-> trim history = trim history').
Proof.
  assert (Hshape : forall h,
    ForkContext.composeForkInputWithContext h rawLanguage
    = ForkContext.CONTEXT_PREFIX (ForkContext.normalizeLanguage rawLanguage)
      ++ ForkContext.str_history_heading ++ trim h ++ [10%N]).
  { intros h. unfold ForkContext.composeForkInputWithContext.
    now destruct (ForkContext.normalizeLanguage rawLanguage). }
  split; [apply Hshape |]. split; [| split].
  - rewrite Hshape.
    destruct (ForkContext.normalizeLanguage rawLanguage);
      eexists; cbn [ForkContext.CONTEXT_PREFIX]; reflexivity.
  - now rewrite !Hshape, trim_idempotent.
  - intros history'. rewrite !Hshape. split.
    + intros H. apply app_inv_head in H. apply app_inv_head in H.
      now apply app_inv_tail in H.
    + now intros ->.
Qed.

Example composeForkInputWithContext_unknown_language :
  exists rest,
    ForkContext.composeForkInputWithContext (js "history") (Some (js "xx"))
    = js "# Branch Context" ++ rest
    /\ includes rest (js "# Conversation History").
Proof.
  eexists. split; [vm_compute; reflexivity |].
  apply includesb_spec. vm_compute. reflexivity.
Qed.
